(** * dpool: a sharded client-side connection pool

    Shallow embedding of the C++ headers [dpool-exception.h],
    [pooled-object.h], [pool-shard.h] and [dpool.h], followed by the
    properties of the per-shard inventory, of the round-robin dispatch and
    of the availability guard of the health checker.

    Conventions of the embedding.
    - Machine integers are [Z] with the conversion written out: [u32] for
      [unsigned] and [uint32_t], [i32] for [int] and [int32_t], [i64] for
      [long], [size_t] for [std::size_t] (LP64 data model).
    - A [std::shared_ptr<T>] is an address ([ptr]) into a [heap] of
      [PooledObject]s, so that the borrowed flag of a connection that is
      reachable both from a caller and from the idle list is one cell.
    - A method that runs under the shard mutex is a function on the shard
      state; the points where the mutex is dropped split a method into the
      critical sections of [Interleaving.step].
    - The outcome of [T::open()] and of [cv_.wait_until] belongs to the
      environment and is an argument. *)

From Stdlib Require Import ZArith Lia Bool Ascii.
From stdpp Require Import base option list gmap strings pretty.

Open Scope Z_scope.

(** ** Machine integers *)

Definition wrap_unsigned (w z : Z) : Z := z mod 2 ^ w.
Definition wrap_signed (w z : Z) : Z := (z + 2 ^ (w - 1)) mod 2 ^ w - 2 ^ (w - 1).

Definition u32 : Z -> Z := wrap_unsigned 32.
Definition i32 : Z -> Z := wrap_signed 32.
Definition i64 : Z -> Z := wrap_signed 64.
Definition size_t : Z -> Z := wrap_unsigned 64.

Definition INT_MIN : Z := - 2 ^ 31.
Definition INT_MAX : Z := 2 ^ 31 - 1.
Definition LONG_MAX : Z := 2 ^ 63 - 1.
Definition UINT_MAX : Z := 2 ^ 32 - 1.

Definition in_int (z : Z) : Prop := INT_MIN <= z <= INT_MAX.
Definition in_uint (z : Z) : Prop := 0 <= z <= UINT_MAX.
Definition in_long (z : Z) : Prop := - 2 ^ 63 <= z <= LONG_MAX.

(** ** dpool-exception.h *)

Record DPoolException := mkDPoolException {
  errmsg_ : string;
  file_ : string;
  line_ : Z
}.

(** [DPoolException::what] *)
Definition what (e : DPoolException) : string := errmsg_ e.

(** [DPoolException::str] *)
Definition str (e : DPoolException) : string :=
  "dpool: " +:+ errmsg_ e +:+ "/@" +:+ file_ e +:+ ":" +:+ pretty (line_ e).

(** ** pooled-object.h *)

Record InetSocketAddress := mkInetSocketAddress {
  host : string;
  port : Z
}.

(** [InetSocketAddress::to_string] *)
Definition to_string (a : InetSocketAddress) : string :=
  host a +:+ ":" +:+ pretty (port a).

(** A shared pointer to a pooled object, and the shard a [void*] data
    source designates (its position in [poolShards_]). *)
Abbreviation ptr := nat.
Abbreviation shard_ref := nat.

Record PooledObject := mkPooledObject {
  dataSource_ : option shard_ref;
  borrowed_ : bool;
  serverAddr_ : InetSocketAddress;
  connTimeout_ : Z;
  dataTimeout_ : Z
}.

Abbreviation heap := (gmap ptr PooledObject).

(** Two objects that agree on data source and address. *)
Definition same_owner (o o' : PooledObject) : Prop :=
  dataSource_ o' = dataSource_ o /\ serverAddr_ o' = serverAddr_ o.

(** [PooledObject::setBorrowed] through a pointer *)
Definition setBorrowed (c : ptr) (v : bool) (h : heap) : heap :=
  alter (fun o => mkPooledObject (dataSource_ o) v (serverAddr_ o)
                                 (connTimeout_ o) (dataTimeout_ o)) c h.

(** [PooledObject::isBorrowed] through a pointer; [None] is a pointer to
    nothing. *)
Definition isBorrowed (c : ptr) (h : heap) : option bool := borrowed_ <$> h !! c.

(** [PooledObject::getDataSource] through a pointer *)
Definition getDataSource (c : ptr) (h : heap) : option shard_ref :=
  h !! c ≫= dataSource_.

Record PoolConfig := mkPoolConfig {
  maxIdle : Z;
  maxActive : Z;
  maxFails : Z;
  connTimeoutMs : Z;
  dataTimeoutMs : Z
}.

(** [PoolConfig::PoolConfig()] *)
Definition PoolConfig_default : PoolConfig :=
  {| connTimeoutMs := 100; dataTimeoutMs := 100; maxIdle := 10;
     maxActive := 100; maxFails := 5 |}.

(** [PoolConfig::PoolConfig(int connTimeoutMs, int dataTimeoutMs, int maxIdle,
    int maxActive = 100, int maxFails = 5)]: the member initialisers of the
    two timeouts are the literals [100], whatever the arguments. *)
Definition PoolConfig_explicit
    (connTimeoutMs' dataTimeoutMs' maxIdle' maxActive' maxFails' : Z) : PoolConfig :=
  {| connTimeoutMs := 100; dataTimeoutMs := 100; maxIdle := maxIdle';
     maxActive := maxActive'; maxFails := maxFails' |}.

Record PoolStats := mkPoolStats {
  server : InetSocketAddress;
  available : bool;
  numActive : Z;
  numGet : Z;
  numPut : Z;
  numBroken : Z;
  numDial : Z;
  numDialFail : Z;
  numEvict : Z;
  numClose : Z
}.

(** [PoolStats::PoolStats(addr)] *)
Definition PoolStats_new (addr : InetSocketAddress) : PoolStats :=
  mkPoolStats addr true 0 0 0 0 0 0 0 0.

(** [PoolStats::reset] *)
Definition PoolStats_reset (st : PoolStats) : PoolStats :=
  mkPoolStats (server st) true 0 0 0 0 0 0 0 0.

(** The statements [stats_.numX++] on the [long] counters. *)
Definition incr_long (z : Z) : Z := i64 (z + 1).

Definition numGet_incr (st : PoolStats) : PoolStats :=
  mkPoolStats (server st) (available st) (numActive st) (incr_long (numGet st))
    (numPut st) (numBroken st) (numDial st) (numDialFail st) (numEvict st) (numClose st).
Definition numPut_incr (st : PoolStats) : PoolStats :=
  mkPoolStats (server st) (available st) (numActive st) (numGet st)
    (incr_long (numPut st)) (numBroken st) (numDial st) (numDialFail st) (numEvict st)
    (numClose st).
Definition numBroken_incr (st : PoolStats) : PoolStats :=
  mkPoolStats (server st) (available st) (numActive st) (numGet st)
    (numPut st) (incr_long (numBroken st)) (numDial st) (numDialFail st) (numEvict st)
    (numClose st).
Definition numDial_incr (st : PoolStats) : PoolStats :=
  mkPoolStats (server st) (available st) (numActive st) (numGet st)
    (numPut st) (numBroken st) (incr_long (numDial st)) (numDialFail st) (numEvict st)
    (numClose st).
Definition numDialFail_incr (st : PoolStats) : PoolStats :=
  mkPoolStats (server st) (available st) (numActive st) (numGet st)
    (numPut st) (numBroken st) (numDial st) (incr_long (numDialFail st)) (numEvict st)
    (numClose st).
Definition numEvict_incr (st : PoolStats) : PoolStats :=
  mkPoolStats (server st) (available st) (numActive st) (numGet st)
    (numPut st) (numBroken st) (numDial st) (numDialFail st) (incr_long (numEvict st))
    (numClose st).
Definition numClose_incr (st : PoolStats) : PoolStats :=
  mkPoolStats (server st) (available st) (numActive st) (numGet st)
    (numPut st) (numBroken st) (numDial st) (numDialFail st) (numEvict st)
    (incr_long (numClose st)).

(** ** What a method does to its environment *)

Inductive cv_status := no_timeout | timeout.

Inductive event :=
| EvMakeShared (addr : InetSocketAddress) (connTimeout dataTimeout : Z)
| EvOpen (ok : bool)
| EvNotifyOne
| EvCvWait
| EvShardGet (shard : shard_ref).

(** The shards a log shows [PoolShard::get] called on, in the order of the
    calls. *)
Definition shard_gets (log : list event) : list shard_ref :=
  omap (fun e => match e with EvShardGet i => Some i | _ => None end) log.

(** ** pool-shard.h *)

Module PoolShard.

Record t := mk {
  kMaxIdle_ : Z;
  kMaxActive_ : Z;
  active_ : Z;
  kMaxWait_ : Z;
  closed_ : bool;
  idle_ : list ptr;
  server_ : InetSocketAddress;
  available_ : bool;
  fails_ : Z;
  kMaxFails_ : Z;
  connTimeoutMs_ : Z;
  dataTimeoutMs_ : Z;
  stats_ : PoolStats
}.

(** The two members with a default initialiser that no constructor
    overrides. *)
Definition kIdleTimeout_ : Z := 500.
Definition kWait_ : bool := false.

Definition with_active (a : Z) (s : t) : t :=
  mk (kMaxIdle_ s) (kMaxActive_ s) a (kMaxWait_ s) (closed_ s) (idle_ s) (server_ s)
     (available_ s) (fails_ s) (kMaxFails_ s) (connTimeoutMs_ s) (dataTimeoutMs_ s)
     (stats_ s).
Definition with_closed (b : bool) (s : t) : t :=
  mk (kMaxIdle_ s) (kMaxActive_ s) (active_ s) (kMaxWait_ s) b (idle_ s) (server_ s)
     (available_ s) (fails_ s) (kMaxFails_ s) (connTimeoutMs_ s) (dataTimeoutMs_ s)
     (stats_ s).
Definition with_idle (l : list ptr) (s : t) : t :=
  mk (kMaxIdle_ s) (kMaxActive_ s) (active_ s) (kMaxWait_ s) (closed_ s) l (server_ s)
     (available_ s) (fails_ s) (kMaxFails_ s) (connTimeoutMs_ s) (dataTimeoutMs_ s)
     (stats_ s).
Definition with_available (b : bool) (s : t) : t :=
  mk (kMaxIdle_ s) (kMaxActive_ s) (active_ s) (kMaxWait_ s) (closed_ s) (idle_ s)
     (server_ s) b (fails_ s) (kMaxFails_ s) (connTimeoutMs_ s) (dataTimeoutMs_ s)
     (stats_ s).
Definition with_fails (f : Z) (s : t) : t :=
  mk (kMaxIdle_ s) (kMaxActive_ s) (active_ s) (kMaxWait_ s) (closed_ s) (idle_ s)
     (server_ s) (available_ s) f (kMaxFails_ s) (connTimeoutMs_ s) (dataTimeoutMs_ s)
     (stats_ s).
Definition with_stats (st : PoolStats) (s : t) : t :=
  mk (kMaxIdle_ s) (kMaxActive_ s) (active_ s) (kMaxWait_ s) (closed_ s) (idle_ s)
     (server_ s) (available_ s) (fails_ s) (kMaxFails_ s) (connTimeoutMs_ s)
     (dataTimeoutMs_ s) st.

(** [PoolShard::PoolShard(server, config)]; [kMaxFails_] is a [uint32_t]
    initialised from an [int]. *)
Definition new (server' : InetSocketAddress) (config : PoolConfig) : t :=
  {| server_ := server'; available_ := true; fails_ := 0; kMaxWait_ := 3;
     kMaxIdle_ := maxIdle config; stats_ := PoolStats_new server';
     kMaxActive_ := maxActive config; kMaxFails_ := u32 (maxFails config);
     active_ := 0; closed_ := false; idle_ := [];
     connTimeoutMs_ := connTimeoutMs config; dataTimeoutMs_ := dataTimeoutMs config |}.

(** *** [get]

    One pass through the body of [while (true)] with the mutex held, up to
    the statement that drops it. *)
Inductive locked_exit :=
| ExitIdle (c : ptr)
| ExitClosed
| ExitDial
| ExitFailFast
| ExitWait.

Definition get_locked (s : t) (h : heap) : locked_exit * t * heap :=
  match idle_ s with
  | c :: rest => (ExitIdle c, with_idle rest s, setBorrowed c true h)
  | [] =>
    if closed_ s then (ExitClosed, s, h)
    else if (kMaxActive_ s =? 0) || (active_ s <? kMaxActive_ s) then
      (ExitDial,
       with_stats (numDial_incr (stats_ s)) (with_active (i32 (active_ s + 1)) s), h)
    else if negb kWait_ then (ExitFailFast, s, h)
    else (ExitWait, s, h)
  end.

(** The [try] block after a successful [open()]: the object is now
    initialised and handed out, so this is where it enters the heap. *)
Definition dial_ok (this : shard_ref) (s : t) (h : heap) : ptr * t * heap :=
  let c := fresh (dom h) in
  (c, with_fails 0 s,
   <[c := mkPooledObject (Some this) true (server_ s) (connTimeoutMs_ s)
            (dataTimeoutMs_ s)]> h).

(** The [catch] block: [fails_.fetch_add(1)] with the mutex released, then
    the section that takes it again. *)
Definition dial_fail_atomic (s : t) : t := with_fails (u32 (fails_ s + 1)) s.
Definition dial_fail_locked (s : t) : t :=
  with_stats (numDialFail_incr (stats_ s)) (with_active (i32 (active_ s - 1)) s).

Definition get_result : Type := option ptr * t * heap * list event.

(** The loop. [waits] lists what the calls of [cv_.wait_until] return
    before the deadline [start + kMaxWait_]; the call after the last of them
    times out. *)
Fixpoint get_loop (this : shard_ref) (open_ok : bool) (waits : list cv_status)
    (s : t) (h : heap) (log : list event) : get_result :=
  match get_locked s h with
  | (ExitIdle c, s', h') => (Some c, s', h', log)
  | (ExitClosed, s', h') => (None, s', h', log)
  | (ExitDial, s', h') =>
    let log' := log ++ [EvMakeShared (server_ s') (connTimeoutMs_ s') (dataTimeoutMs_ s');
                        EvOpen open_ok] in
    if open_ok then
      let '(c, s'', h'') := dial_ok this s' h' in (Some c, s'', h'', log')
    else
      (None, dial_fail_locked (dial_fail_atomic s'), h', log' ++ [EvNotifyOne])
  | (ExitFailFast, s', h') => (None, s', h', log)
  | (ExitWait, s', h') =>
    match waits with
    | no_timeout :: waits' => get_loop this open_ok waits' s' h' (log ++ [EvCvWait])
    | _ => (None, s', h', log ++ [EvCvWait])
    end
  end.

Definition get (this : shard_ref) (open_ok : bool) (waits : list cv_status)
    (s : t) (h : heap) : get_result :=
  get_loop this open_ok waits (with_stats (numGet_incr (stats_ s)) s) h [].

(** *** [put]

    The whole body runs with the mutex held. The result is [None] when [pc]
    points to no object. The last component is the value of [pc] at the end:
    the connection the pool lets go of, if any. *)
Definition put_park (pc : ptr) (broken : bool) (s : t) : option ptr * t :=
  if negb (closed_ s) && negb broken then
    let idle' := pc :: idle_ s in
    if Z.of_nat (length idle') >? size_t (kMaxIdle_ s) then
      (last idle',
       with_stats (numEvict_incr (stats_ s)) (with_idle (removelast idle') s))
    else (None, with_idle idle' s)
  else (Some pc, s).

Definition put_fails (broken : bool) (s : t) : t :=
  if broken then
    with_stats (numBroken_incr (stats_ s)) (with_fails (u32 (fails_ s + 1)) s)
  else with_fails 0 s.

Definition put (pc : ptr) (broken : bool) (s : t) (h : heap)
    : option (t * heap * list event * option ptr) :=
  let s1 := with_stats (numPut_incr (stats_ s)) s in
  b ← isBorrowed pc h;
  if negb b then Some (s1, h, [], None)
  else
    let h1 := setBorrowed pc false h in
    let '(victim, s2) := put_park pc broken (put_fails broken s1) in
    match victim with
    | None => Some (s2, h1, [EvNotifyOne], None)
    | Some v =>
      Some (with_stats (numClose_incr (stats_ s2)) (with_active (i32 (active_ s2 - 1)) s2),
            h1, [EvNotifyOne], Some v)
    end.

(** *** The small methods *)

Definition isAvailable (s : t) : bool := available_ s.

Definition isSuspectable (s : t) : bool := fails_ s >=? kMaxFails_ s.

(** [available_.compare_exchange_strong(expected = !avail, avail)] *)
Definition markAvailable (avail : bool) (s : t) : bool * t :=
  if Bool.eqb (available_ s) (negb avail) then (true, with_available avail s)
  else (false, s).

Definition getServerAddr (s : t) : InetSocketAddress := server_ s.

Definition getShardStats (st : PoolStats) (s : t) : PoolStats * t :=
  (mkPoolStats (server st) (available_ s) (active_ s) (numGet (stats_ s))
     (numPut (stats_ s)) (numBroken (stats_ s)) (numDial (stats_ s))
     (numDialFail (stats_ s)) (numEvict (stats_ s)) (numClose (stats_ s)),
   with_stats (PoolStats_reset (stats_ s)) s).

(** One pass through the loop of [empty], [None] when the loop exits. *)
Definition empty_iter (s : t) : option t :=
  match idle_ s with
  | [] => None
  | _ :: rest =>
    Some (with_stats (numClose_incr (stats_ s))
            (with_active (i32 (active_ s - 1)) (with_idle rest s)))
  end.

Fixpoint empty_loop (fuel : nat) (s : t) : t :=
  match fuel with
  | O => s
  | S fuel' => match empty_iter s with
               | None => s
               | Some s' => empty_loop fuel' s'
               end
  end.

Definition empty (s : t) : t := empty_loop (length (idle_ s)) s.

Definition close (s : t) : t :=
  if closed_ s then s else empty (with_closed true s).

(** What no method of a shard writes: the members declared [const]. *)
Definition same_config (s s' : t) : Prop :=
  kMaxIdle_ s' = kMaxIdle_ s /\ kMaxActive_ s' = kMaxActive_ s /\
  kMaxWait_ s' = kMaxWait_ s /\ kMaxFails_ s' = kMaxFails_ s /\
  server_ s' = server_ s /\ connTimeoutMs_ s' = connTimeoutMs_ s /\
  dataTimeoutMs_ s' = dataTimeoutMs_ s.

(** [s'] is [s] up to the availability flag. *)
Definition flags_only (s s' : t) : Prop := s' = with_available (available_ s') s.


(** [n] calls of [get] in a row, each dialling and each [open()] failing. *)
Fixpoint failing_gets (n : nat) (this : shard_ref) (s : t) (h : heap) : t :=
  match n with
  | O => s
  | S n' => failing_gets n' this (snd (fst (fst (get this false [] s h)))) h
  end.

End PoolShard.

(** ** dpool.h *)

Module DPool.

Record t := mk {
  servers_ : list InetSocketAddress;
  poolShards_ : list PoolShard.t;
  poolConfig_ : PoolConfig;
  index_ : Z;
  numAvailable_ : Z;
  closed_ : bool
}.

Definition with_shards (l : list PoolShard.t) (p : t) : t :=
  mk (servers_ p) l (poolConfig_ p) (index_ p) (numAvailable_ p) (closed_ p).
Definition with_index (i : Z) (p : t) : t :=
  mk (servers_ p) (poolShards_ p) (poolConfig_ p) i (numAvailable_ p) (closed_ p).
Definition with_numAvailable (n : Z) (p : t) : t :=
  mk (servers_ p) (poolShards_ p) (poolConfig_ p) (index_ p) n (closed_ p).

(** [DPool::DPool(servers, config)]. No initialiser mentions [index_]: the
    value the counter starts from is [index0]. [numAvailable_] is an [int]
    assigned from a [size_t]. *)
Definition new (servers : list InetSocketAddress) (config : PoolConfig) (index0 : Z) : t :=
  {| servers_ := servers;
     poolShards_ := (fun a => PoolShard.new a config) <$> servers;
     poolConfig_ := config;
     index_ := u32 index0;
     numAvailable_ := i32 (size_t (Z.of_nat (length servers)));
     closed_ := false |}.

Inductive outcome := Return (pc : ptr) | Throw (e : DPoolException).

(** [index_.fetch_add(1)], for its effect *)
Definition fetch_add_index (p : t) : t := with_index (u32 (index_ p + 1)) p.

(** [int idx = ((localIndex + tries) % servers_.size())] *)
Definition shard_index (p : t) (localIndex tries : Z) : Z :=
  i32 (size_t (u32 (localIndex + tries)) mod size_t (Z.of_nat (length (servers_ p)))).

(** [poolShards_[idx]]: the subscript of a vector is a [size_t]. *)
Definition subscript (idx : Z) : nat := Z.to_nat (size_t idx).

(** The shard in position [i] after a method has run on it. *)
Definition store_shard (i : shard_ref) (s : PoolShard.t) (p : t) : t :=
  with_shards (<[i := s]> (poolShards_ p)) p.

Section WithFile.

(** What [__FILE__] expands to where [dpool.h] is compiled. *)
Variable FILE : string.

Definition exhausted : DPoolException :=
  mkDPoolException "failed to get connection after max retries" FILE 68.

(** The [for] loop of [get] with [n] passes left, [tries = 5 - n]. The
    environment says, for each pass, whether an [open()] made in it
    succeeds. The result is [None] when a subscript is out of range. *)
Fixpoint get_loop (n : nat) (tries localIndex : Z) (opens : Z -> bool)
    (waits : Z -> list cv_status) (p : t) (h : heap) (log : list event)
    : option (outcome * t * heap * list event) :=
  match n with
  | O => Some (Throw exhausted, p, h, log)
  | S n' =>
    let idx := shard_index p localIndex tries in
    shard ← poolShards_ p !! subscript idx;
    if negb (PoolShard.isAvailable shard) then
      get_loop n' (u32 (tries + 1)) localIndex opens waits (fetch_add_index p) h log
    else
      let '(pc, shard', h', evs) :=
        PoolShard.get (subscript idx) (opens tries) (waits tries) shard h in
      let p' := store_shard (subscript idx) shard' p in
      let log' := log ++ EvShardGet (subscript idx) :: evs in
      match pc with
      | None =>
        get_loop n' (u32 (tries + 1)) localIndex opens waits (fetch_add_index p') h' log'
      | Some c => Some (Return c, p', h', log')
      end
  end.

Definition get (opens : Z -> bool) (waits : Z -> list cv_status) (p : t) (h : heap)
    : option (outcome * t * heap * list event) :=
  get_loop 5 0 (index_ p) opens waits (fetch_add_index p) h [].

End WithFile.

(** [DPool::put]; [None] when one of the two assertions fails or the data
    source is no shard of this pool. *)
Definition put (pc : ptr) (broken : bool) (p : t) (h : heap)
    : option (t * heap * list event) :=
  i ← getDataSource pc h;
  shard ← poolShards_ p !! i;
  '(shard', h', evs, _) ← PoolShard.put pc broken shard h;
  Some (store_shard i shard' p, h', evs).

(** [numAvailable_*3 > servers_.size()*2]: the left side is an [int]
    product, converted to [size_t] for the comparison. *)
Definition quorum_guard (p : t) : bool :=
  size_t (i32 (numAvailable_ p * 3)) >? size_t (Z.of_nat (length (servers_ p)) * 2).

(** [DPool::markAvailable(shard, b)], the shard given by its position. *)
Definition markAvailable (i : shard_ref) (b : bool) (p : t) : option t :=
  shard ← poolShards_ p !! i;
  if b then
    let '(changed, shard') := PoolShard.markAvailable true shard in
    if changed then
      Some (with_numAvailable (i32 (numAvailable_ p + 1)) (store_shard i shard' p))
    else Some p
  else if quorum_guard p then
    let '(changed, shard') := PoolShard.markAvailable false shard in
    if changed then
      Some (with_numAvailable (i32 (numAvailable_ p - 1)) (store_shard i shard' p))
    else Some p
  else Some p.

(** [DPool::checkServer]: at most two connection attempts, outside the
    pool; [probe k] says whether attempt [k] opens. *)
Definition checkServer (probe : nat -> bool) : bool := probe 0%nat || probe 1%nat.

(** The body of the inner [for] of [healthCheck] at the shard in position
    [i], and one scan over all shards. *)
Definition healthCheck_visit (probe : shard_ref -> nat -> bool) (p : t) (i : shard_ref) : t :=
  match poolShards_ p !! i with
  | None => p
  | Some shard =>
    if negb (PoolShard.isSuspectable shard) && PoolShard.isAvailable shard then p
    else default p (markAvailable i (checkServer (probe i)) p)
  end.

Definition healthCheck_scan (probe : shard_ref -> nat -> bool) (p : t) : t :=
  foldl (healthCheck_visit probe) p (seq 0 (length (poolShards_ p))).

(** The visits still to come of a scan that has reached position [from]. *)
Definition healthCheck_rest (probe : shard_ref -> nat -> bool) (from : nat) (p : t) : t :=
  foldl (healthCheck_visit probe) p (seq from (length (poolShards_ p) - from)).

(** The calls the health checker makes, one after the other. *)
Inductive prober_step : t -> t -> Prop :=
| prober_call i b p p' : markAvailable i b p = Some p' -> prober_step p p'.

(** The number of shards whose availability flag is set. *)
Fixpoint available_among (l : list PoolShard.t) : Z :=
  match l with
  | [] => 0
  | s :: l' => (if PoolShard.available_ s then 1 else 0) + available_among l'
  end.

Definition count_available (p : t) : Z := available_among (poolShards_ p).

(** What the constructor establishes and no method changes: one shard per
    server, at least one server, and a count that fits the [int] arithmetic
    of [get]. *)
Definition wf (p : t) : Prop :=
  (length (poolShards_ p) = length (servers_ p))%nat /\
  0 < Z.of_nat (length (servers_ p)) <= INT_MAX.

(** What the health checker relies on: [numAvailable_] counts the available
    shards, and three times the number of servers is an [int]. *)
Definition prober_inv (p : t) : Prop :=
  (length (poolShards_ p) = length (servers_ p))%nat /\
  numAvailable_ p = count_available p /\
  0 < Z.of_nat (length (servers_ p)) /\
  Z.of_nat (length (servers_ p)) * 3 <= INT_MAX.

(** *** The dispatch of [acquire] as the specification words it

    [local] is the cursor value the call snapshots. For [t] from 0 to 4 the
    call looks at the shard in position [(local + t) mod N], the sum taken
    in the cursor's [unsigned] arithmetic. [attempts local t p h r p' h']
    reads: entering try [t] with pool [p] and heap [h], the call ends with
    result [r], pool [p'] and heap [h']. Whether a shard is skipped is read
    off its flag [available_]. *)
Definition cursor_slot (p : t) (local tries : Z) : nat :=
  Z.to_nat (u32 (local + tries) mod Z.of_nat (length (servers_ p))).

Inductive attempts (FILE : string) (opens : Z -> bool) (waits : Z -> list cv_status)
    (local : Z) : Z -> t -> heap -> outcome -> t -> heap -> Prop :=
| attempts_exhausted p h :
    attempts FILE opens waits local 5 p h (Throw (exhausted FILE)) p h
| attempts_unavailable tries p h shard r p' h' :
    0 <= tries < 5 ->
    poolShards_ p !! cursor_slot p local tries = Some shard ->
    PoolShard.available_ shard = false ->
    attempts FILE opens waits local (tries + 1) (fetch_add_index p) h r p' h' ->
    attempts FILE opens waits local tries p h r p' h'
| attempts_null tries p h shard shard' h1 evs r p' h' :
    0 <= tries < 5 ->
    poolShards_ p !! cursor_slot p local tries = Some shard ->
    PoolShard.available_ shard = true ->
    PoolShard.get (cursor_slot p local tries) (opens tries) (waits tries) shard h
      = (None, shard', h1, evs) ->
    attempts FILE opens waits local (tries + 1)
      (fetch_add_index (store_shard (cursor_slot p local tries) shard' p)) h1 r p' h' ->
    attempts FILE opens waits local tries p h r p' h'
| attempts_hit tries p h shard shard' h1 evs c :
    0 <= tries < 5 ->
    poolShards_ p !! cursor_slot p local tries = Some shard ->
    PoolShard.available_ shard = true ->
    PoolShard.get (cursor_slot p local tries) (opens tries) (waits tries) shard h
      = (Some c, shard', h1, evs) ->
    attempts FILE opens waits local tries p h (Return c)
      (store_shard (cursor_slot p local tries) shard' p) h1.

Definition with_closed (b : bool) (p : t) : t :=
  mk (servers_ p) (poolShards_ p) (poolConfig_ p) (index_ p) (numAvailable_ p) b.

(** [DPool::shutdown]: the exchange on [closed_], then the join of the
    health check thread. A pool already closed is left as it is. The thread
    tests [closed_] at the top of its loop only (line 138): when the flag is
    set it is asleep before a scan or at some position [from] of one, and
    the join returns once the visits from there on are done; [from = 0] is a
    whole scan, [from] the number of shards is a scan that had just ended.
    [probe] gives the answers of the servers to those visits. Nothing after
    the join. *)
Definition shutdown (probe : shard_ref -> nat -> bool) (from : nat) (p : t) : t :=
  if closed_ p then p else healthCheck_rest probe from (with_closed true p).

(** [DPool::getPoolStats]: the list is cleared, then one entry is pushed
    for each shard, in order, by [getShardStats] on an entry made from the
    shard's address. *)
Fixpoint getPoolStats_loop (shards : list PoolShard.t) (statsList : list PoolStats)
    : list PoolStats * list PoolShard.t :=
  match shards with
  | [] => (statsList, [])
  | shard :: rest =>
    let '(st, shard') :=
      PoolShard.getShardStats (PoolStats_new (PoolShard.getServerAddr shard)) shard in
    let '(out, rest') := getPoolStats_loop rest (statsList ++ [st]) in
    (out, shard' :: rest')
  end.

Definition getPoolStats (statsList : list PoolStats) (p : t) : list PoolStats * t :=
  let '(out, shards') := getPoolStats_loop (poolShards_ p) [] in
  (out, with_shards shards' p).

(** *** Who owns a connection

    The data source of a connection is the position of a shard of the pool
    that serves the connection's address, and a parked connection is parked
    in the shard its data source names. *)
Definition heap_owned (p : t) (h : heap) : Prop :=
  forall c o i,
    h !! c = Some o -> dataSource_ o = Some i ->
    exists shard, poolShards_ p !! i = Some shard /\
                  serverAddr_ o = PoolShard.server_ shard.

Definition idle_owned (p : t) (h : heap) : Prop :=
  forall i shard c,
    poolShards_ p !! i = Some shard -> c ∈ PoolShard.idle_ shard ->
    exists o, h !! c = Some o /\ dataSource_ o = Some i.

Definition owned (p : t) (h : heap) : Prop := heap_owned p h /\ idle_owned p h.

(** What the pool keeps across calls of the health checker. *)
Definition prober_frame (p p' : t) : Prop :=
  servers_ p' = servers_ p /\ index_ p' = index_ p /\ closed_ p' = closed_ p /\
  poolConfig_ p' = poolConfig_ p /\
  length (poolShards_ p') = length (poolShards_ p) /\
  forall j s, poolShards_ p !! j = Some s ->
    exists s', poolShards_ p' !! j = Some s' /\ PoolShard.flags_only s s'.



(** A shard the health checker passes over. *)
Definition healthy (s : PoolShard.t) : bool :=
  negb (PoolShard.isSuspectable s) && PoolShard.isAvailable s.

End DPool.

(** ** The shard under concurrent callers

    Threads meet a shard only through its mutex and its atomics. A step is
    one critical section of a method, or one atomic operation made with the
    mutex released; every state between two steps is a mutex boundary.
    [step_dial_fail_locked] is enabled in every state, which allows more
    runs than the program has. *)

Module Interleaving.

Import PoolShard.

Inductive step : t * heap -> t * heap -> Prop :=
| step_get_enter s h e s' h' :
    get_locked (with_stats (numGet_incr (stats_ s)) s) h = (e, s', h') ->
    step (s, h) (s', h')
| step_get_wake s h e s' h' :
    get_locked s h = (e, s', h') -> step (s, h) (s', h')
| step_dial_ok this s h c s' h' :
    dial_ok this s h = (c, s', h') -> step (s, h) (s', h')
| step_dial_fail_atomic s h :
    step (s, h) (dial_fail_atomic s, h)
| step_dial_fail_locked s h :
    step (s, h) (dial_fail_locked s, h)
| step_put pc broken s h s' h' evs victim :
    put pc broken s h = Some (s', h', evs, victim) -> step (s, h) (s', h')
| step_close_cas s h :
    closed_ s = false -> step (s, h) (with_closed true s, h)
| step_empty_iter s h s' :
    empty_iter s = Some s' -> step (s, h) (s', h)
| step_markAvailable avail s h changed s' :
    markAvailable avail s = (changed, s') -> step (s, h) (s', h)
| step_getShardStats st s h st' s' :
    getShardStats st s = (st', s') -> step (s, h) (s', h).

(** The capacity invariant of a shard. *)
Definition capacity (s : t) : Prop :=
  (0 < kMaxActive_ s -> active_ s <= kMaxActive_ s) /\
  Z.of_nat (length (idle_ s)) <= kMaxIdle_ s.

End Interleaving.

(** ** Text search, for what an error message mentions *)

Fixpoint contains (needle hay : string) : bool :=
  String.prefix needle hay ||
  match hay with
  | EmptyString => false
  | String _ hay' => contains needle hay'
  end.

(** Whether a character occurs in a string. *)
Fixpoint has_char (c : ascii) (s : string) : bool :=
  match s with
  | EmptyString => false
  | String c' s' => Ascii.eqb c c' || has_char c s'
  end.

(** ** The servers of the example program and pools over them *)

Module Examples.

Definition server1 : InetSocketAddress := mkInetSocketAddress "127.0.0.1" 6379.
Definition server2 : InetSocketAddress := mkInetSocketAddress "127.0.0.1" 6380.
Definition server3 : InetSocketAddress := mkInetSocketAddress "127.0.0.1" 6381.

Definition shard1 : PoolShard.t :=
  Eval vm_compute in PoolShard.new server1 PoolConfig_default.

Definition pool3 : DPool.t :=
  Eval vm_compute in DPool.new [server1; server2; server3] PoolConfig_default 0.

(** A shard with one connection out: the state and heap after a first
    [get] whose [open()] succeeds; the connection is at address 0. *)
Definition lent : PoolShard.t * heap :=
  Eval vm_compute in
    let '(_, s, h, _) := PoolShard.get 0%nat true [] shard1 ∅ in (s, h).

(** The same after the connection came back broken. *)
Definition returned_broken : PoolShard.t * heap :=
  Eval vm_compute in
    match PoolShard.put 0%nat true (fst lent) (snd lent) with
    | Some (s, h, _, _) => (s, h)
    | None => lent
    end.

(** A shard of capacity one with its one connection out. *)
Definition full : PoolShard.t * heap :=
  Eval vm_compute in
    let '(_, s, h, _) :=
      PoolShard.get 0%nat true []
        (PoolShard.new server1 (PoolConfig_explicit 100 100 2 1 5)) ∅
    in (s, h).

(** [pool3] after the health checker has marked its first shard down. *)
Definition pool3_down : DPool.t :=
  Eval vm_compute in default pool3 (DPool.markAvailable 0%nat false pool3).

End Examples.

(** ** Further states of the example shards and pools *)

Module MoreExamples.

(** A shard with room for one idle connection, two connections made (at
    addresses 0 and 1), the first released clean and parked, the second
    still out. *)
Definition one_parked : PoolShard.t * heap :=
  Eval vm_compute in
    let s0 := PoolShard.new Examples.server1 (PoolConfig_explicit 100 100 1 100 5) in
    let '(_, s1, h1, _) := PoolShard.get 0%nat true [] s0 ∅ in
    let '(_, s2, h2, _) := PoolShard.get 0%nat true [] s1 h1 in
    match PoolShard.put 0%nat false s2 h2 with
    | Some (s3, h3, _, _) => (s3, h3)
    | None => (s2, h2)
    end.

(** A shard with [maxIdle = -1] and one connection out. *)
Definition negative_idle_lent : PoolShard.t * heap :=
  Eval vm_compute in
    let s0 := PoolShard.new Examples.server1
                (PoolConfig_explicit 100 100 (-1) 100 5) in
    let '(_, s1, h1, _) := PoolShard.get 0%nat true [] s0 ∅ in (s1, h1).

(** A shard with [maxActive = -1]. *)
Definition negative_active : PoolShard.t :=
  Eval vm_compute in
    PoolShard.new Examples.server1 (PoolConfig_explicit 100 100 10 (-1) 5).

(** The first [get] of [Examples.shard1], its [open()] succeeding. *)
Definition first_get : PoolShard.get_result :=
  Eval vm_compute in PoolShard.get 0%nat true [] Examples.shard1 ∅.

(** The first [get] on [Examples.pool3], every [open()] succeeding: its
    connection, the pool, the heap and the log after it. *)
Definition pool3_got : ptr * DPool.t * heap * list event :=
  Eval vm_compute in
    match DPool.get "dpool.h" (fun _ => true) (fun _ => []) Examples.pool3 ∅ with
    | Some (DPool.Return c, p, h, log) => (c, p, h, log)
    | _ => (0%nat, Examples.pool3, ∅, [])
    end.

(** A [get] on [Examples.pool3_down], whose first shard is unavailable. *)
Definition pool3_down_got : DPool.outcome * DPool.t * heap * list event :=
  Eval vm_compute in
    match DPool.get "dpool.h" (fun _ => true) (fun _ => []) Examples.pool3_down ∅ with
    | Some x => x
    | None => (DPool.Throw (DPool.exhausted "dpool.h"), Examples.pool3_down, ∅, [])
    end.

(** The pool of three servers with its cursor at [UINT_MAX], the last value
    before the cursor wraps, and a [get] on it during which every [open()]
    fails. *)
Definition pool3_wrap : DPool.t :=
  Eval vm_compute in
    DPool.new [Examples.server1; Examples.server2; Examples.server3]
      PoolConfig_default 4294967295.
Definition pool3_wrap_got : DPool.outcome * DPool.t * heap * list event :=
  Eval vm_compute in
    match DPool.get "dpool.h" (fun _ => false) (fun _ => []) pool3_wrap ∅ with
    | Some x => x
    | None => (DPool.Throw (DPool.exhausted "dpool.h"), pool3_wrap, ∅, [])
    end.

(** A pool of three servers with [maxFails = 1] after a [get] during which
    every [open()] failed: the failure counts are 2, 2 and 1, so every shard
    is suspectable, and every shard is still available. *)
Definition pool3_suspect : DPool.t :=
  Eval vm_compute in
    let p := DPool.new [Examples.server1; Examples.server2; Examples.server3]
               (PoolConfig_explicit 100 100 10 100 1) 0 in
    match DPool.get "dpool.h" (fun _ => false) (fun _ => []) p ∅ with
    | Some (_, p', _, _) => p'
    | None => p
    end.


End MoreExamples.

(** * Properties *)

(** ** Machine integers *)

Lemma i32_id z : in_int z -> i32 z = z.
Proof.
  unfold in_int, INT_MIN, INT_MAX, i32, wrap_signed. intros Hz.
  change (2 ^ (32 - 1)) with 2147483648 in *. change (2 ^ 31) with 2147483648 in *.
  change (2 ^ 32) with 4294967296.
  rewrite Z.mod_small; lia.
Qed.

Lemma i64_id z : in_long z -> i64 z = z.
Proof.
  unfold in_long, LONG_MAX, i64, wrap_signed. intros Hz.
  change (2 ^ (64 - 1)) with 9223372036854775808 in *.
  change (2 ^ 63) with 9223372036854775808 in *.
  change (2 ^ 64) with 18446744073709551616.
  rewrite Z.mod_small; lia.
Qed.

Lemma u32_id z : in_uint z -> u32 z = z.
Proof.
  unfold in_uint, UINT_MAX, u32, wrap_unsigned. intros Hz.
  change (2 ^ 32) with 4294967296 in *. rewrite Z.mod_small; lia.
Qed.

Lemma size_t_id z : 0 <= z < 2 ^ 64 -> size_t z = z.
Proof. unfold size_t, wrap_unsigned. intros Hz. rewrite Z.mod_small; lia. Qed.

Lemma i32_range z : in_int (i32 z).
Proof.
  unfold in_int, INT_MIN, INT_MAX, i32, wrap_signed.
  change (2 ^ (32 - 1)) with 2147483648. change (2 ^ 31) with 2147483648.
  change (2 ^ 32) with 4294967296.
  pose proof (Z.mod_pos_bound (z + 2147483648) 4294967296). lia.
Qed.

Lemma u32_range z : in_uint (u32 z).
Proof.
  unfold in_uint, UINT_MAX, u32, wrap_unsigned. change (2 ^ 32) with 4294967296.
  pose proof (Z.mod_pos_bound z 4294967296). lia.
Qed.

Lemma size_t_le z : 0 <= z -> size_t z <= z.
Proof.
  unfold size_t, wrap_unsigned. intros Hz. apply Z.mod_le; [lia|].
  apply Z.pow_pos_nonneg; lia.
Qed.

(** [x++; x--] on an [int] gives [x] back. *)
Lemma i32_incr_decr z : in_int z -> i32 (i32 (z + 1) - 1) = z.
Proof.
  intros Hz. unfold in_int, INT_MIN, INT_MAX in Hz.
  change (2 ^ 31) with 2147483648 in Hz.
  destruct (Z.eq_dec z 2147483647) as [->|Hne]; [reflexivity|].
  rewrite (i32_id (z + 1)); [|unfold in_int, INT_MIN, INT_MAX; lia].
  replace (z + 1 - 1) with z by lia. apply i32_id. unfold in_int, INT_MIN, INT_MAX. lia.
Qed.

(** Below the largest value the increments are the mathematical ones. *)
Lemma incr_long_succ z : in_long z -> z < LONG_MAX -> incr_long z = z + 1.
Proof. intros Hz Hlt. apply i64_id. unfold in_long in *. lia. Qed.


(** Membership in an event log that is written out. *)
Ltac log_mem :=
  rewrite ?elem_of_app, ?elem_of_cons, ?elem_of_nil;
  first [ intuition discriminate | intuition congruence ].

(** ** The shard, one caller at a time *)

Section Shard.

Import PoolShard.

Implicit Types (s : t) (h : heap) (c pc : ptr).

Lemma isBorrowed_lookup c h b :
  isBorrowed c h = Some b -> exists o, h !! c = Some o /\ borrowed_ o = b.
Proof.
  unfold isBorrowed. destruct (h !! c) as [o|]; simpl; [|discriminate].
  intros [= <-]. eauto.
Qed.

Lemma isBorrowed_setBorrowed c v h :
  is_Some (h !! c) -> isBorrowed c (setBorrowed c v h) = Some v.
Proof.
  intros [o Ho]. unfold isBorrowed, setBorrowed.
  rewrite lookup_alter_eq, Ho. reflexivity.
Qed.

(** The loop of [get], one pass unfolded. *)
Lemma get_loop_eq this open_ok waits s h log :
  get_loop this open_ok waits s h log =
  match get_locked s h with
  | (ExitIdle c, s', h') => (Some c, s', h', log)
  | (ExitClosed, s', h') => (None, s', h', log)
  | (ExitDial, s', h') =>
    let log' := log ++ [EvMakeShared (server_ s') (connTimeoutMs_ s') (dataTimeoutMs_ s');
                        EvOpen open_ok] in
    if open_ok then
      let '(c, s'', h'') := dial_ok this s' h' in (Some c, s'', h'', log')
    else
      (None, dial_fail_locked (dial_fail_atomic s'), h', log' ++ [EvNotifyOne])
  | (ExitFailFast, s', h') => (None, s', h', log)
  | (ExitWait, s', h') =>
    match waits with
    | no_timeout :: waits' => get_loop this open_ok waits' s' h' (log ++ [EvCvWait])
    | _ => (None, s', h', log ++ [EvCvWait])
    end
  end.
Proof. destruct waits; reflexivity. Qed.

(** The first pass of [get] when the shard has to dial. *)
Lemma get_locked_dial s h :
  idle_ s = [] -> closed_ s = false ->
  kMaxActive_ s = 0 \/ active_ s < kMaxActive_ s ->
  get_locked s h =
    (ExitDial,
     with_stats (numDial_incr (stats_ s)) (with_active (i32 (active_ s + 1)) s), h).
Proof.
  intros Hidle Hclosed Hcap. unfold get_locked. rewrite Hidle, Hclosed.
  destruct Hcap as [->|Hlt]; [reflexivity|].
  rewrite (proj2 (Z.ltb_lt _ _) Hlt), orb_true_r. reflexivity.
Qed.

(** The first pass of [get] when the shard is at capacity. *)
Lemma get_locked_exhausted s h :
  idle_ s = [] -> closed_ s = false ->
  kMaxActive_ s <> 0 -> kMaxActive_ s <= active_ s ->
  get_locked s h = (ExitFailFast, s, h).
Proof.
  intros Hidle Hclosed Hnz Hge. unfold get_locked. rewrite Hidle, Hclosed.
  rewrite (proj2 (Z.eqb_neq _ _) Hnz), (proj2 (Z.ltb_ge _ _) Hge). reflexivity.
Qed.

Lemma get_locked_never_waits s h : fst (fst (get_locked s h)) <> ExitWait.
Proof.
  unfold get_locked. destruct (idle_ s); [|discriminate].
  destruct (closed_ s); [discriminate|].
  destruct (_ || _); discriminate.
Qed.


(** C6. A release of a connection whose borrowed flag is already false
    returns at once: [numPut] is one more (for a counter below [LONG_MAX],
    where the increment of a [long] is defined), and the rest of the shard
    (idle list, [active_], [fails_], the other counters), the heap (so the
    connection and its flag), the events (nobody is notified) and the set of
    destroyed connections (none) are as before. *)
Theorem put_duplicate_frame pc broken s h :
  isBorrowed pc h = Some false ->
  put pc broken s h = Some (with_stats (numPut_incr (stats_ s)) s, h, [], None) /\
  (forall s' h' evs victim,
     put pc broken s h = Some (s', h', evs, victim) ->
     (in_long (numPut (stats_ s)) -> numPut (stats_ s) < LONG_MAX ->
      numPut (stats_ s') = numPut (stats_ s) + 1) /\
     idle_ s' = idle_ s /\ active_ s' = active_ s /\ fails_ s' = fails_ s /\
     numBroken (stats_ s') = numBroken (stats_ s) /\
     numEvict (stats_ s') = numEvict (stats_ s) /\
     numClose (stats_ s') = numClose (stats_ s) /\
     numGet (stats_ s') = numGet (stats_ s) /\
     numDial (stats_ s') = numDial (stats_ s) /\
     numDialFail (stats_ s') = numDialFail (stats_ s) /\
     closed_ s' = closed_ s /\ available_ s' = available_ s /\
     h' = h /\ isBorrowed pc h' = Some false /\ victim = None /\ evs = []).
Proof.
  intros Hb.
  assert (Hput : put pc broken s h
                 = Some (with_stats (numPut_incr (stats_ s)) s, h, [], None)).
  { unfold put. rewrite Hb. reflexivity. }
  split; [exact Hput|].
  intros s' h' evs victim Heq. rewrite Hput in Heq.
  injection Heq as <- <- <- <-. simpl.
  split; [intros Hin Hlt; apply incr_long_succ; assumption|].
  repeat split; try reflexivity; try assumption.
Qed.

(** C5. When the shard dials and [open()] throws, [get] returns null;
    [fails_] and [numDialFail] are one more, [active_] is back at its value
    before the call, [numGet] and [numDial] are one more, and nothing else
    of the shard or of the heap has changed; one waiter is notified. *)
Theorem get_open_failure_rollback this waits s h :
  in_int (active_ s) ->
  idle_ s = [] -> closed_ s = false ->
  kMaxActive_ s = 0 \/ active_ s < kMaxActive_ s ->
  exists s' log,
    get this false waits s h = (None, s', h, log) /\
    fails_ s' = u32 (fails_ s + 1) /\
    numDialFail (stats_ s') = incr_long (numDialFail (stats_ s)) /\
    active_ s' = active_ s /\
    numGet (stats_ s') = incr_long (numGet (stats_ s)) /\
    numDial (stats_ s') = incr_long (numDial (stats_ s)) /\
    s' = with_stats (numDialFail_incr (numDial_incr (numGet_incr (stats_ s))))
           (with_fails (u32 (fails_ s + 1)) s) /\
    EvOpen false ∈ log /\ EvNotifyOne ∈ log.
Proof.
  intros Hact Hidle Hclosed Hcap.
  unfold get.
  rewrite get_loop_eq, (get_locked_dial (with_stats _ s) h Hidle Hclosed Hcap).
  cbv iota beta. eexists _, _. split; [reflexivity|].
  unfold dial_fail_locked, dial_fail_atomic. simpl.
  rewrite (i32_incr_decr _ Hact).
  repeat split; try reflexivity; log_mem.
Qed.


(** C10. [get] never reaches [cv_.wait_until]: no run of it has a wait
    among its events and no pass of its loop ends at the wait. At capacity
    (nothing idle, not closed, [kMaxActive_] positive and reached) it returns
    null in its first pass, whatever the waits would have returned, having
    changed [numGet] only. *)
Theorem get_never_waits this open_ok waits s h :
  (forall s0 h0, fst (fst (get_locked s0 h0)) <> ExitWait) /\
  (EvCvWait ∉ snd (get this open_ok waits s h)) /\
  (idle_ s = [] -> closed_ s = false ->
   0 < kMaxActive_ s -> kMaxActive_ s <= active_ s ->
   get this open_ok waits s h = (None, with_stats (numGet_incr (stats_ s)) s, h, [])).
Proof.
  split; [apply get_locked_never_waits|]. split.
  - unfold get.
    set (s1 := with_stats _ s).
    pose proof (get_locked_never_waits s1 h) as Hnw.
    destruct waits as [|w waits]; simpl;
      destruct (get_locked s1 h) as [[e s'] h'] eqn:E; simpl in Hnw;
      destruct e; try congruence; simpl;
      try (destruct open_ok; simpl); log_mem.
  - intros Hidle Hclosed Hpos Hge. unfold get.
    destruct waits as [|w waits]; simpl;
      rewrite get_locked_exhausted; simpl; try assumption; try reflexivity; lia.
Qed.

End Shard.

(** ** The capacity invariant at the mutex boundaries *)

Section Capacity.

Import PoolShard Interleaving.

Implicit Types (s : t) (h : heap).

Lemma i32_decr_le a m : INT_MIN < a -> a <= m -> i32 (a - 1) <= m.
Proof.
  intros Hlo Hle. destruct (Z_le_gt_dec (a - 1) INT_MAX) as [Hin|Hout].
  - rewrite i32_id; [lia|]. unfold in_int. lia.
  - pose proof (i32_range (a - 1)) as [_ Hmax]. lia.
Qed.

Lemma i32_incr_le a m : INT_MIN < a -> a < m -> i32 (a + 1) <= m.
Proof.
  intros Hlo Hlt. destruct (Z_le_gt_dec (a + 1) INT_MAX) as [Hin|Hout].
  - rewrite i32_id; [lia|]. unfold in_int. lia.
  - pose proof (i32_range (a + 1)) as [_ Hmax]. lia.
Qed.

Lemma length_removelast_cons {A} (x : A) (l : list A) :
  length (removelast (x :: l)) = length l.
Proof. rewrite removelast_firstn_len, length_take, length_cons. simpl. lia. Qed.

(** [get_locked] raises [active_] by one when the test of line 57 holds,
    and leaves it alone otherwise; the idle list never grows. *)
Lemma get_locked_active s h e s' h' :
  get_locked s h = (e, s', h') ->
  kMaxIdle_ s' = kMaxIdle_ s /\ kMaxActive_ s' = kMaxActive_ s /\
  (length (idle_ s') <= length (idle_ s))%nat /\
  (active_ s' = active_ s \/
   (kMaxActive_ s = 0 \/ active_ s < kMaxActive_ s) /\ active_ s' = i32 (active_ s + 1)).
Proof.
  unfold get_locked. destruct (idle_ s) as [|c rest] eqn:Hidle.
  - destruct (closed_ s).
    + intros [= <- <- <-]. rewrite Hidle. auto.
    + destruct (kMaxActive_ s =? 0) eqn:Hz; simpl.
      * intros [= <- <- <-]. simpl. rewrite Hidle. apply Z.eqb_eq in Hz. auto 10.
      * destruct (active_ s <? kMaxActive_ s) eqn:Hlt; simpl.
        -- intros [= <- <- <-]. simpl. rewrite Hidle. apply Z.ltb_lt in Hlt. auto 10.
        -- intros [= <- <- <-]. rewrite Hidle. auto.
  - intros [= <- <- <-]. simpl. auto with lia.
Qed.

Lemma get_locked_capacity s h e s' h' :
  INT_MIN < active_ s -> get_locked s h = (e, s', h') -> capacity s -> capacity s'.
Proof.
  intros Hlo Hget [Hact Hidle].
  destruct (get_locked_active _ _ _ _ _ Hget) as (HI & HA & Hlen & Hcase).
  unfold capacity. rewrite HI, HA. split; [|lia].
  intros Hpos. specialize (Hact Hpos).
  destruct Hcase as [->|[[Hz|Hlt] ->]]; [assumption|lia|].
  apply i32_incr_le; assumption.
Qed.

Lemma put_park_capacity pc broken s victim s' :
  put_park pc broken s = (victim, s') ->
  Z.of_nat (length (idle_ s)) <= kMaxIdle_ s ->
  kMaxIdle_ s' = kMaxIdle_ s /\ kMaxActive_ s' = kMaxActive_ s /\
  active_ s' = active_ s /\ Z.of_nat (length (idle_ s')) <= kMaxIdle_ s.
Proof.
  unfold put_park. intros Hpark Hidle.
  destruct (negb (closed_ s) && negb broken).
  - destruct (Z.gtb_spec (Z.of_nat (length (pc :: idle_ s))) (size_t (kMaxIdle_ s)))
      as [Hgt|Hle].
    + injection Hpark as <- <-. cbn -[removelast length Z.of_nat].
      repeat split. destruct (idle_ s) as [|x l]; [exact Hidle|].
      rewrite length_cons, length_removelast_cons. rewrite length_cons in Hidle. lia.
    + injection Hpark as <- <-. simpl in *.
      pose proof (size_t_le (kMaxIdle_ s)). repeat split; lia.
  - injection Hpark as <- <-. auto.
Qed.

Lemma put_capacity pc broken s h s' h' evs victim :
  INT_MIN < active_ s -> put pc broken s h = Some (s', h', evs, victim) ->
  capacity s -> capacity s'.
Proof.
  intros Hlo Hput [Hact Hidle]. unfold put in Hput.
  destruct (isBorrowed pc h) as [[|]|]; simpl in Hput; [| |discriminate].
  - destruct (put_park pc broken _) as [v s2] eqn:Hpark.
    apply put_park_capacity in Hpark as (HI & HA & Hac & Hlen).
    + assert (HI' : kMaxIdle_ s2 = kMaxIdle_ s)
        by (rewrite HI; unfold put_fails; destruct broken; reflexivity).
      assert (HA' : kMaxActive_ s2 = kMaxActive_ s)
        by (rewrite HA; unfold put_fails; destruct broken; reflexivity).
      assert (Hac' : active_ s2 = active_ s)
        by (rewrite Hac; unfold put_fails; destruct broken; reflexivity).
      assert (Hlen' : Z.of_nat (length (idle_ s2)) <= kMaxIdle_ s)
        by (etrans; [exact Hlen|]; unfold put_fails; destruct broken; simpl; lia).
      destruct v; injection Hput as <- <- <- <-; unfold capacity; simpl;
        rewrite HI', HA', Hac'; (split; [|assumption]); intros Hpos.
      * apply i32_decr_le; auto.
      * auto.
    + unfold put_fails. destruct broken; simpl; assumption.
  - injection Hput as <- <- <- <-. split; assumption.
Qed.

(** The methods are runs of steps: the first section of [get], then the
    sections of its dial; [put] is one section; [close] is the exchange on
    [closed_], then one section for each connection [empty] drops. *)
Lemma get_steps this open_ok waits s h r s' h' log :
  get this open_ok waits s h = (r, s', h', log) -> rtc step (s, h) (s', h').
Proof.
  unfold get. rewrite get_loop_eq.
  pose proof (get_locked_never_waits (with_stats (numGet_incr (stats_ s)) s) h) as Hnw.
  destruct (get_locked _ h) as [[e s1] h1] eqn:Hsec. simpl in Hnw.
  pose proof (step_get_enter _ _ _ _ _ Hsec) as Hfirst.
  destruct e; try congruence.
  - intros [= _ <- <- _]. apply rtc_once, Hfirst.
  - intros [= _ <- <- _]. apply rtc_once, Hfirst.
  - cbv zeta. destruct open_ok.
    + destruct (dial_ok this s1 h1) as [[c s2] h2] eqn:Hok.
      intros [= _ <- <- _]. eapply rtc_l; [exact Hfirst|].
      apply rtc_once. eapply step_dial_ok, Hok.
    + intros [= _ <- <- _]. eapply rtc_l; [exact Hfirst|].
      eapply rtc_l; [apply step_dial_fail_atomic|].
      apply rtc_once, step_dial_fail_locked.
  - intros [= _ <- <- _]. apply rtc_once, Hfirst.
Qed.

Lemma empty_loop_steps fuel : forall s h, rtc step (s, h) (empty_loop fuel s, h).
Proof.
  induction fuel as [|fuel IH]; intros s h; simpl; [apply rtc_refl|].
  destruct (empty_iter s) as [s1|] eqn:Hiter; [|apply rtc_refl].
  eapply rtc_l; [apply step_empty_iter, Hiter | apply IH].
Qed.

Lemma close_steps s h : rtc step (s, h) (close s, h).
Proof.
  unfold close. destruct (closed_ s) eqn:Hclosed; [apply rtc_refl|].
  eapply rtc_l; [apply step_close_cas, Hclosed | apply empty_loop_steps].
Qed.

(** [empty] has the fuel it needs: it leaves no idle connection. *)
Lemma empty_loop_drains fuel :
  forall s, (length (idle_ s) <= fuel)%nat -> idle_ (empty_loop fuel s) = [].
Proof.
  induction fuel as [|fuel IH]; intros s Hlen; simpl.
  - destruct (idle_ s); [reflexivity|simpl in Hlen; lia].
  - unfold empty_iter. destruct (idle_ s) as [|c rest] eqn:Hidle; [exact Hidle|].
    apply IH. simpl in *. lia.
Qed.

Lemma close_drains s : closed_ s = false -> idle_ (close s) = [] /\ closed_ (close s) = true.
Proof.
  intros Hclosed. unfold close, empty. rewrite Hclosed. split.
  - apply empty_loop_drains. reflexivity.
  - generalize (length (idle_ (with_closed true s))).
    assert (Hc : closed_ (with_closed true s) = true) by reflexivity.
    revert Hc. generalize (with_closed true s).
    intros s0 Hc n. revert s0 Hc. induction n as [|n IH]; intros s0 Hc; simpl; [exact Hc|].
    unfold empty_iter. destruct (idle_ s0); [exact Hc|]. apply IH. exact Hc.
Qed.

(** A shard as constructed satisfies the invariant when [maxIdle] is not
    negative. *)
Lemma capacity_new a cfg : 0 <= maxIdle cfg -> 0 <= maxActive cfg -> capacity (new a cfg).
Proof. intros Hidle Hact. split; simpl; lia. Qed.

(** C3. Every step of a shard (a critical section of [get], [put],
    [close] / [empty], [getShardStats], or an atomic operation made between
    them) keeps the capacity invariant: [active_ <= kMaxActive_] when
    [kMaxActive_] is positive, and [idle_.size() <= kMaxIdle_]. [active_]
    is an [int32_t], so the state must leave room for the decrement. The
    only place that raises [active_] is the dial branch of [get], entered
    when [kMaxActive_ == 0] or [active_ < kMaxActive_]. *)
Theorem capacity_invariant_preserved :
  (forall st st',
     step st st' -> INT_MIN < active_ (fst st) ->
     capacity (fst st) -> capacity (fst st')) /\
  (forall s h e s' h',
     get_locked s h = (e, s', h') -> active_ s' <> active_ s ->
     (kMaxActive_ s = 0 \/ active_ s < kMaxActive_ s) /\
     active_ s' = i32 (active_ s + 1)).
Proof.
  split.
  - intros st st' Hstep. destruct Hstep; simpl; intros Hlo Hcap.
    + eapply get_locked_capacity; [| eassumption |]; [exact Hlo | exact Hcap].
    + eapply get_locked_capacity; eassumption.
    + unfold dial_ok in H. injection H as <- <- <-. exact Hcap.
    + exact Hcap.
    + destruct Hcap as [Hact Hidle]. split; simpl; [|assumption].
      intros Hpos. apply i32_decr_le; auto.
    + eapply put_capacity; eassumption.
    + exact Hcap.
    + unfold empty_iter in H. destruct (idle_ s) as [|c rest] eqn:Hid; [discriminate|].
      injection H as <-. destruct Hcap as [Hact Hidle]. rewrite Hid in Hidle.
      split; simpl.
      * intros Hpos. apply i32_decr_le; auto.
      * rewrite length_cons in Hidle. lia.
    + unfold markAvailable in H.
      destruct (Bool.eqb _ _); injection H as <- <-; exact Hcap.
    + unfold getShardStats in H. injection H as <- <-. exact Hcap.
  - intros s h e s' h' Hget Hne.
    destruct (get_locked_active _ _ _ _ _ Hget) as (_ & _ & _ & [Heq|Hcase]);
      [congruence | exact Hcase].
Qed.

End Capacity.

(** ** The failure counter *)

Section Fails.

Import PoolShard.

Implicit Types (s : t) (h : heap) (pc : ptr).

(** A release of a borrowed connection goes through; what it does to
    [fails_] depends on [broken] only. *)
Lemma put_borrowed pc broken s h :
  isBorrowed pc h = Some true ->
  exists s' evs victim,
    put pc broken s h = Some (s', setBorrowed pc false h, evs, victim) /\
    fails_ s' = (if broken then u32 (fails_ s + 1) else 0) /\
    numBroken (stats_ s') =
      (if broken then incr_long (numBroken (stats_ s)) else numBroken (stats_ s)).
Proof.
  intros Hb. unfold put. rewrite Hb. cbn [negb mbind option_bind].
  destruct (put_park pc broken _) as [v s2] eqn:Hpark.
  assert (Hs2 : fails_ s2 = (if broken then u32 (fails_ s + 1) else 0) /\
                numBroken (stats_ s2) =
                (if broken then incr_long (numBroken (stats_ s))
                 else numBroken (stats_ s))).
  { unfold put_park in Hpark.
    destruct (negb (closed_ _) && negb broken);
      [destruct (_ >? _)|]; injection Hpark as <- <-;
      destruct broken; split; reflexivity. }
  destruct v; eexists _, _, _; (split; [reflexivity|]); exact Hs2.
Qed.

(** The dial branch of [get] when [open()] succeeds. *)
Lemma get_open_success this waits s h :
  idle_ s = [] -> closed_ s = false ->
  kMaxActive_ s = 0 \/ active_ s < kMaxActive_ s ->
  let c := fresh (dom h) in
  get this true waits s h =
    (Some c,
     with_fails 0
       (with_stats (numDial_incr (numGet_incr (stats_ s)))
          (with_active (i32 (active_ s + 1)) s)),
     <[c := mkPooledObject (Some this) true (server_ s) (connTimeoutMs_ s)
              (dataTimeoutMs_ s)]> h,
     [EvMakeShared (server_ s) (connTimeoutMs_ s) (dataTimeoutMs_ s); EvOpen true]).
Proof.
  intros Hidle Hclosed Hcap. unfold get.
  rewrite get_loop_eq, (get_locked_dial (with_stats _ s) h Hidle Hclosed Hcap).
  reflexivity.
Qed.

(** C8, amended. [fails_] is one more (as an [unsigned]) after an [open()]
    that fails in [get] and after a release with [broken = true] of a
    connection that is borrowed; it is 0 after an [open()] that succeeds in
    [get] and after a clean release of a connection that is borrowed.
    [isSuspectable] holds exactly when [fails_ >= kMaxFails_], and
    [kMaxFails_] is the configured [maxFails] whenever that is not
    negative. *)
Theorem fails_counter_accounting this waits s h pc :
  (idle_ s = [] -> closed_ s = false ->
   kMaxActive_ s = 0 \/ active_ s < kMaxActive_ s ->
   (exists s' h' log,
      get this false waits s h = (None, s', h', log) /\
      fails_ s' = u32 (fails_ s + 1)) /\
   (exists c s' h' log,
      get this true waits s h = (Some c, s', h', log) /\ fails_ s' = 0)) /\
  (isBorrowed pc h = Some true ->
   (exists s' h' evs victim,
      put pc true s h = Some (s', h', evs, victim) /\
      fails_ s' = u32 (fails_ s + 1)) /\
   (exists s' h' evs victim,
      put pc false s h = Some (s', h', evs, victim) /\ fails_ s' = 0)) /\
  (isSuspectable s = true <-> fails_ s >= kMaxFails_ s) /\
  (forall a cfg, 0 <= maxFails cfg <= INT_MAX ->
     kMaxFails_ (new a cfg) = maxFails cfg).
Proof.
  split; [|split; [|split]].
  - intros Hidle Hclosed Hcap. split.
    + unfold get.
      rewrite get_loop_eq, (get_locked_dial (with_stats _ s) h Hidle Hclosed Hcap).
      eexists _, _, _. split; reflexivity.
    + rewrite get_open_success by assumption.
      eexists _, _, _, _. split; reflexivity.
  - intros Hb. split.
    + destruct (put_borrowed pc true s h Hb) as (s' & evs & v & Hput & Hf & _). eauto 8.
    + destruct (put_borrowed pc false s h Hb) as (s' & evs & v & Hput & Hf & _). eauto 8.
  - unfold isSuspectable. rewrite Z.geb_le. lia.
  - intros a cfg Hrange. simpl. apply u32_id.
    unfold in_uint, UINT_MAX, INT_MAX in *.
    change (2 ^ 31) with 2147483648 in Hrange. change (2 ^ 32) with 4294967296. lia.
Qed.

End Fails.

(** ** The availability guard of the health checker *)

Section Quorum.

Import DPool.

Implicit Types (p : t) (i : shard_ref).

Lemma available_among_bounds l : 0 <= available_among l <= Z.of_nat (length l).
Proof.
  induction l as [|s l IH]; simpl available_among; [simpl; lia|].
  rewrite length_cons. destruct (PoolShard.available_ s); lia.
Qed.

Lemma available_among_insert l i s s' :
  l !! i = Some s ->
  available_among (<[i := s']> l) =
    available_among l - (if PoolShard.available_ s then 1 else 0)
                      + (if PoolShard.available_ s' then 1 else 0).
Proof.
  revert i. induction l as [|x l IH]; intros [|i] Hi; try discriminate.
  - injection Hi as ->. simpl. lia.
  - change (<[S i := s']> (x :: l)) with (x :: <[i := s']> l).
    simpl available_among. rewrite (IH i Hi). lia.
Qed.

Lemma available_among_new servers cfg :
  available_among ((fun a => PoolShard.new a cfg) <$> servers)
  = Z.of_nat (length servers).
Proof.
  induction servers as [|a l IH]; [reflexivity|].
  rewrite fmap_cons, length_cons. simpl available_among. rewrite IH. lia.
Qed.

Lemma prober_inv_range p :
  prober_inv p -> 0 <= numAvailable_ p <= Z.of_nat (length (servers_ p)).
Proof.
  intros (Hlen & Hnum & _ & _). rewrite Hnum, <- Hlen. apply available_among_bounds.
Qed.

(** Under the invariant the test of line 107 is the comparison of the two
    products as integers. *)
Lemma quorum_guard_plain p :
  prober_inv p ->
  quorum_guard p = (numAvailable_ p * 3 >? Z.of_nat (length (servers_ p)) * 2).
Proof.
  intros Hinv. pose proof (prober_inv_range p Hinv) as Hr.
  destruct Hinv as (_ & _ & Hpos & Hmax). unfold quorum_guard.
  unfold INT_MAX in Hmax. change (2 ^ 31) with 2147483648 in Hmax.
  rewrite i32_id, !size_t_id; try reflexivity;
    unfold in_int, INT_MIN, INT_MAX;
    change (2 ^ 31) with 2147483648; change (2 ^ 64) with 18446744073709551616; lia.
Qed.

Lemma numAvailable_new servers cfg index0 :
  Z.of_nat (length servers) <= INT_MAX ->
  numAvailable_ (new servers cfg index0) = Z.of_nat (length servers).
Proof.
  intros Hmax. unfold INT_MAX in Hmax. change (2 ^ 31) with 2147483648 in Hmax.
  cbn [new numAvailable_]. rewrite size_t_id.
  - apply i32_id. unfold in_int, INT_MIN, INT_MAX. change (2 ^ 31) with 2147483648. lia.
  - change (2 ^ 64) with 18446744073709551616. lia.
Qed.

Lemma prober_inv_new servers cfg index0 :
  servers <> [] -> Z.of_nat (length servers) * 3 <= INT_MAX ->
  prober_inv (new servers cfg index0).
Proof.
  intros Hne Hmax.
  assert (0 < Z.of_nat (length servers)) by (destruct servers; [congruence|simpl; lia]).
  unfold prober_inv. rewrite numAvailable_new by lia.
  unfold count_available. cbn [new poolShards_ servers_].
  rewrite length_fmap, available_among_new. auto.
Qed.

(** What a mark-down does, the guard read as integers. *)
Lemma markAvailable_down p i shard :
  prober_inv p -> poolShards_ p !! i = Some shard ->
  markAvailable i false p =
    Some (if (numAvailable_ p * 3 >? Z.of_nat (length (servers_ p)) * 2)
             && PoolShard.available_ shard
          then with_numAvailable (numAvailable_ p - 1)
                 (store_shard i (PoolShard.with_available false shard) p)
          else p).
Proof.
  intros Hinv Hi. pose proof (prober_inv_range p Hinv) as Hr.
  unfold markAvailable. rewrite Hi. cbn [mbind option_bind].
  rewrite (quorum_guard_plain p Hinv).
  destruct (Z.gtb_spec (numAvailable_ p * 3) (Z.of_nat (length (servers_ p)) * 2))
    as [Hgt|Hle]; [|reflexivity].
  unfold PoolShard.markAvailable.
  destruct (PoolShard.available_ shard) eqn:Hav; simpl; [|reflexivity].
  rewrite i32_id; [reflexivity|].
  destruct Hinv as (_ & _ & _ & Hmax). unfold in_int, INT_MIN, INT_MAX in *.
  change (2 ^ 31) with 2147483648 in *. lia.
Qed.

(** What a mark-up does. *)
Lemma markAvailable_up p i shard :
  prober_inv p -> poolShards_ p !! i = Some shard ->
  markAvailable i true p =
    Some (if PoolShard.available_ shard then p
          else with_numAvailable (numAvailable_ p + 1)
                 (store_shard i (PoolShard.with_available true shard) p)).
Proof.
  intros Hinv Hi. pose proof (prober_inv_range p Hinv) as Hr.
  unfold markAvailable. rewrite Hi. cbn [mbind option_bind].
  unfold PoolShard.markAvailable.
  destruct (PoolShard.available_ shard) eqn:Hav; simpl; [reflexivity|].
  rewrite i32_id; [reflexivity|].
  destruct Hinv as (_ & _ & _ & Hmax). unfold in_int, INT_MIN, INT_MAX in *.
  change (2 ^ 31) with 2147483648 in *. lia.
Qed.

Lemma prober_step_inv p p' :
  prober_step p p' -> prober_inv p ->
  prober_inv p' /\ servers_ p' = servers_ p /\
  (Z.of_nat (length (servers_ p)) * 2 < (numAvailable_ p + 1) * 3 ->
   Z.of_nat (length (servers_ p)) * 2 < (numAvailable_ p' + 1) * 3).
Proof.
  intros [i b p0 p1 Hcall] Hinv.
  destruct (poolShards_ p0 !! i) as [shard|] eqn:Hi;
    [|unfold markAvailable in Hcall; rewrite Hi in Hcall; discriminate].
  destruct b.
  - rewrite (markAvailable_up _ _ _ Hinv Hi) in Hcall. injection Hcall as <-.
    destruct (PoolShard.available_ shard) eqn:Hav; [auto|].
    split; [|split; [reflexivity|simpl; lia]].
    destruct Hinv as (Hlen & Hnum & Hpos & Hmax).
    unfold prober_inv, count_available. simpl.
    rewrite length_insert, (available_among_insert _ _ _ _ Hi), Hav. simpl.
    unfold count_available in Hnum. repeat split; try assumption; lia.
  - rewrite (markAvailable_down _ _ _ Hinv Hi) in Hcall. injection Hcall as <-.
    destruct (Z.gtb_spec (numAvailable_ p0 * 3) (Z.of_nat (length (servers_ p0)) * 2))
      as [Hgt|Hle]; simpl; [|auto].
    destruct (PoolShard.available_ shard) eqn:Hav; [|auto].
    split; [|split; [reflexivity|simpl; lia]].
    destruct Hinv as (Hlen & Hnum & Hpos & Hmax).
    unfold prober_inv, count_available. simpl.
    rewrite length_insert, (available_among_insert _ _ _ _ Hi), Hav. simpl.
    unfold count_available in Hnum. repeat split; try assumption; lia.
Qed.

Lemma prober_run_inv p0 p :
  rtc prober_step p0 p -> prober_inv p0 ->
  Z.of_nat (length (servers_ p0)) * 2 < (numAvailable_ p0 + 1) * 3 ->
  prober_inv p /\ servers_ p = servers_ p0 /\
  Z.of_nat (length (servers_ p0)) * 2 < (numAvailable_ p + 1) * 3.
Proof.
  intros Hrun. induction Hrun as [p|p0 p1 p2 Hstep Hrun IH]; intros Hinv HJ; [auto|].
  destruct (prober_step_inv _ _ Hstep Hinv) as (Hinv1 & Hsrv & HJ1).
  rewrite Hsrv in IH. destruct (IH Hinv1 (HJ1 HJ)) as (Hinv2 & Hsrv2 & HJ2).
  split; [assumption|]. split; [congruence|assumption].
Qed.

(** A scan of [healthCheck] is a sequence of such calls. *)
Lemma healthCheck_visit_steps probe p i : rtc prober_step p (healthCheck_visit probe p i).
Proof.
  unfold healthCheck_visit. destruct (poolShards_ p !! i) as [shard|]; [|apply rtc_refl].
  destruct (_ && _); [apply rtc_refl|].
  destruct (markAvailable i _ p) as [p'|] eqn:Hcall; simpl; [|apply rtc_refl].
  apply rtc_once. econstructor. exact Hcall.
Qed.

Lemma healthCheck_scan_steps probe p : rtc prober_step p (healthCheck_scan probe p).
Proof.
  unfold healthCheck_scan. generalize (seq 0 (length (poolShards_ p))). intros l.
  revert p. induction l as [|i l IH]; intros p; simpl; [apply rtc_refl|].
  etrans; [apply healthCheck_visit_steps | apply IH].
Qed.

(** C1, amended. (1) In a pool whose [numAvailable_] counts its available
    shards, [markAvailable(shard, false)] clears the flag and lowers
    [numAvailable_] by one exactly when [numAvailable_ * 3 > N * 2] held
    before the call and the flag was set; otherwise pool and shard are as
    before. (2) After any sequence of calls of the health checker on a pool
    just constructed, [numAvailable_] still counts the available shards and
    lies between 0 and [N]; a mark-down that lowers it started strictly
    above two thirds of [N], and at or below two thirds every mark-down is
    refused; when [N] is a multiple of 3, [numAvailable_] is never below two
    thirds of [N] (it may be equal to it). *)
Theorem markAvailable_quorum_guard :
  (forall p i shard,
     prober_inv p -> poolShards_ p !! i = Some shard ->
     exists p',
       markAvailable i false p = Some p' /\
       (if (numAvailable_ p * 3 >? Z.of_nat (length (servers_ p)) * 2)
           && PoolShard.available_ shard
        then p' = with_numAvailable (numAvailable_ p - 1)
                    (store_shard i (PoolShard.with_available false shard) p)
        else p' = p)) /\
  (forall servers cfg index0 p,
     servers <> [] -> Z.of_nat (length servers) * 3 <= INT_MAX ->
     rtc prober_step (new servers cfg index0) p ->
     let N := Z.of_nat (length servers) in
     numAvailable_ p = count_available p /\
     0 <= numAvailable_ p <= N /\
     (N mod 3 = 0 -> N * 2 <= numAvailable_ p * 3) /\
     (forall i p',
        markAvailable i false p = Some p' ->
        (numAvailable_ p * 3 <= N * 2 -> p' = p) /\
        (numAvailable_ p' < numAvailable_ p ->
         N * 2 < numAvailable_ p * 3 /\ numAvailable_ p' = numAvailable_ p - 1))).
Proof.
  split.
  - intros p i shard Hinv Hi. eexists. split; [apply markAvailable_down; eassumption|].
    destruct (_ && _); reflexivity.
  - intros servers cfg index0 p Hne Hmax Hrun N.
    pose proof (prober_inv_new servers cfg index0 Hne Hmax) as Hinv0.
    assert (HJ0 : Z.of_nat (length (servers_ (new servers cfg index0))) * 2
                  < (numAvailable_ (new servers cfg index0) + 1) * 3).
    { destruct Hinv0 as (_ & Hnum & _ & _). rewrite Hnum. unfold count_available. simpl.
      rewrite available_among_new. lia. }
    destruct (prober_run_inv _ _ Hrun Hinv0 HJ0) as (Hinv & Hsrv & HJ).
    simpl in Hsrv, HJ. fold N in HJ.
    pose proof (prober_inv_range p Hinv) as Hr. rewrite Hsrv in Hr. fold N in Hr.
    split; [apply Hinv|]. split; [lia|].
    split; [intros Hmod; pose proof (Z.div_mod N 3 ltac:(lia)); lia|].
    intros i p' Hcall.
    destruct (poolShards_ p !! i) as [shard|] eqn:Hi;
      [|unfold markAvailable in Hcall; rewrite Hi in Hcall; discriminate].
    rewrite (markAvailable_down _ _ _ Hinv Hi), Hsrv in Hcall. fold N in Hcall.
    injection Hcall as <-.
    destruct (Z.gtb_spec (numAvailable_ p * 3) (N * 2)) as [Hgt|Hle]; simpl.
    + split; [lia|]. destruct (PoolShard.available_ shard); simpl; lia.
    + split; [reflexivity|lia].
Qed.

End Quorum.

(** ** The dispatch of [DPool::get] *)

Section Dispatch.

Import DPool.

Variable FILE : string.
Variable opens : Z -> bool.
Variable waits : Z -> list cv_status.

Implicit Types (p : t) (h : heap) (local tries : Z).

Lemma u32_succ_idemp x : u32 (u32 x + 1) = u32 (x + 1).
Proof.
  unfold u32, wrap_unsigned. apply Z.add_mod_idemp_l. discriminate.
Qed.

Lemma u32_add_succ x k : u32 (u32 (x + 1) + k) = u32 (x + (k + 1)).
Proof.
  unfold u32, wrap_unsigned. rewrite Z.add_mod_idemp_l by discriminate.
  f_equal. lia.
Qed.

Lemma cursor_slot_lt p local tries :
  wf p -> (cursor_slot p local tries < length (poolShards_ p))%nat.
Proof.
  intros [Hlen [Hpos Hmax]]. unfold cursor_slot. rewrite Hlen.
  pose proof (Z.mod_pos_bound (u32 (local + tries)) (Z.of_nat (length (servers_ p))) Hpos).
  lia.
Qed.

(** With one shard per server and a server count that is an [int], the
    subscript the code computes is the position the specification names. *)
Lemma shard_index_slot p local tries :
  wf p -> subscript (shard_index p local tries) = cursor_slot p local tries.
Proof.
  intros [Hlen [Hpos Hmax]]. unfold subscript, shard_index, cursor_slot.
  unfold INT_MAX in Hmax. change (2 ^ 31) with 2147483648 in Hmax.
  pose proof (u32_range (local + tries)) as [Hlo Hhi]. unfold UINT_MAX in Hhi.
  change (2 ^ 32) with 4294967296 in Hhi.
  rewrite (size_t_id (u32 _)), (size_t_id (Z.of_nat _));
    try (change (2 ^ 64) with 18446744073709551616; lia).
  pose proof (Z.mod_pos_bound (u32 (local + tries)) (Z.of_nat (length (servers_ p))) Hpos).
  rewrite i32_id, size_t_id; try reflexivity.
  - change (2 ^ 64) with 18446744073709551616. lia.
  - unfold in_int, INT_MIN, INT_MAX. change (2 ^ 31) with 2147483648. lia.
Qed.

Lemma wf_fetch_add_index p : wf p -> wf (fetch_add_index p).
Proof. intros Hwf. exact Hwf. Qed.

Lemma wf_store_shard i s p : wf p -> wf (store_shard i s p).
Proof.
  intros [Hlen Hrange]. split; [|exact Hrange].
  unfold store_shard. simpl. rewrite length_insert. exact Hlen.
Qed.

(** The loop of [get] returns, and what it returns is a run of
    [attempts]. *)
Lemma get_loop_attempts local n :
  forall tries p h log,
    wf p -> 0 <= tries -> tries + Z.of_nat n = 5 ->
    exists r p' h' log',
      get_loop FILE n tries local opens waits p h log = Some (r, p', h', log') /\
      attempts FILE opens waits local tries p h r p' h'.
Proof.
  induction n as [|n IH]; intros tries p h log Hwf Hlo Hsum.
  - assert (tries = 5) as -> by lia. eexists _, _, _, _. split; [reflexivity|].
    constructor.
  - assert (Htries : 0 <= tries < 5) by lia.
    assert (Hnext : u32 (tries + 1) = tries + 1).
    { apply u32_id. unfold in_uint, UINT_MAX. change (2 ^ 32) with 4294967296. lia. }
    cbn [get_loop]. rewrite (shard_index_slot p local tries Hwf), Hnext.
    destruct (lookup_lt_is_Some_2 _ _ (cursor_slot_lt p local tries Hwf))
      as [shard Hshard].
    rewrite Hshard. cbn [mbind option_bind].
    destruct (PoolShard.isAvailable shard) eqn:Hav; cbn [negb].
    + destruct (PoolShard.get _ _ _ shard h) as [[[pc shard'] h1] evs] eqn:Hget.
      destruct pc as [c|].
      * eexists _, _, _, _. split; [reflexivity|].
        eapply attempts_hit; eassumption.
      * edestruct (IH (tries + 1)
                      (fetch_add_index (store_shard (cursor_slot p local tries) shard' p))
                      h1 (log ++ EvShardGet (cursor_slot p local tries) :: evs))
          as (r & p' & h' & log' & Hloop & Hatt);
          [apply wf_fetch_add_index, wf_store_shard, Hwf | lia | lia |].
        eexists _, _, _, _. split; [exact Hloop|].
        eapply attempts_null; eassumption.
    + edestruct (IH (tries + 1) (fetch_add_index p) h log)
        as (r & p' & h' & log' & Hloop & Hatt);
        [apply wf_fetch_add_index, Hwf | lia | lia |].
      eexists _, _, _, _. split; [exact Hloop|].
      eapply attempts_unavailable; eassumption.
Qed.

(** Where the cursor ends: one step for the snapshot and one for each try
    that did not return. *)
Lemma attempts_index local tries p h r p' h' :
  attempts FILE opens waits local tries p h r p' h' ->
  forall x, index_ p = u32 x ->
    match r with
    | Return _ => exists k, tries <= k < 5 /\ index_ p' = u32 (x + (k - tries))
    | Throw e => e = exhausted FILE /\ index_ p' = u32 (x + (5 - tries))
    end.
Proof.
  induction 1 as [p h|tries p h shard r p' h' Ht Hs Hav Hrest IH
                 |tries p h shard shard' h1 evs r p' h' Ht Hs Hav Hget Hrest IH
                 |tries p h shard shard' h1 evs c Ht Hs Hav Hget]; intros x Hx.
  - split; [reflexivity|]. rewrite Hx. f_equal. lia.
  - specialize (IH (x + 1)). cbn [fetch_add_index with_index index_] in IH.
    rewrite Hx, u32_succ_idemp in IH. specialize (IH eq_refl).
    destruct r as [c|e].
    + destruct IH as (k & Hk & Hidx). exists k. split; [lia|]. rewrite Hidx. f_equal. lia.
    + destruct IH as (He & Hidx). split; [exact He|]. rewrite Hidx. f_equal. lia.
  - specialize (IH (x + 1)).
    cbn [fetch_add_index store_shard with_shards with_index index_] in IH.
    rewrite Hx, u32_succ_idemp in IH. specialize (IH eq_refl).
    destruct r as [c|e].
    + destruct IH as (k & Hk & Hidx). exists k. split; [lia|]. rewrite Hidx. f_equal. lia.
    + destruct IH as (He & Hidx). split; [exact He|]. rewrite Hidx. f_equal. lia.
  - exists tries. split; [lia|]. cbn [store_shard with_shards index_].
    rewrite Hx. f_equal. lia.
Qed.

(** With no shard available the loop runs to its end and touches neither
    shards nor heap nor log. *)
Lemma get_loop_all_unavailable local n :
  forall tries p h log,
    wf p ->
    (forall shard, shard ∈ poolShards_ p -> PoolShard.isAvailable shard = false) ->
    exists p',
      get_loop FILE n tries local opens waits p h log
        = Some (Throw (exhausted FILE), p', h, log) /\
      poolShards_ p' = poolShards_ p.
Proof.
  induction n as [|n IH]; intros tries p h log Hwf Hall.
  - eexists. split; reflexivity.
  - cbn [get_loop]. rewrite (shard_index_slot p local tries Hwf).
    destruct (lookup_lt_is_Some_2 _ _ (cursor_slot_lt p local tries Hwf))
      as [shard Hshard].
    rewrite Hshard. cbn [mbind option_bind].
    rewrite (Hall shard (list_elem_of_lookup_2 _ _ _ Hshard)). cbn [negb].
    destruct (IH (u32 (tries + 1)) (fetch_add_index p) h log
                 (wf_fetch_add_index p Hwf) Hall) as (p' & Hloop & Hshards).
    exists p'. split; assumption.
Qed.

(** Whatever the loop throws is the one exception of line 68. *)
Lemma get_loop_throw local n :
  forall tries p h log e p' h' log',
    get_loop FILE n tries local opens waits p h log = Some (Throw e, p', h', log') ->
    e = exhausted FILE.
Proof.
  induction n as [|n IH]; intros tries p h log e p' h' log' Hloop.
  - injection Hloop as <- _ _ _. reflexivity.
  - cbn [get_loop] in Hloop.
    destruct (poolShards_ p !! _) as [shard|]; [|discriminate].
    cbn [mbind option_bind] in Hloop.
    destruct (negb (PoolShard.isAvailable shard)); [eapply IH; eassumption|].
    destruct (PoolShard.get _ _ _ shard h) as [[[pc shard'] h1] evs].
    destruct pc as [c|]; [discriminate|]. eapply IH; eassumption.
Qed.

(** C2, amended. On a pool with one shard per server, [get] returns, and
    its run is the dispatch of the specification with the sum taken in the
    cursor's 32 bits: the cursor is read and advanced once; try [t] (from 0,
    below 5) looks at the shard in position [((local + t) mod 2^32) mod N],
    which is [(local + t) mod N] as long as [local + t] is below [2^32]; a
    shard whose flag [available_] is down and a shard whose [get] returns
    null each advance the cursor once more and pass to [t + 1]; the first
    connection a shard returns is the result; after five tries the call
    throws the exception of line 68. The cursor ends [1 + k] past its start
    when try [k] returned, 6 past it on exhaustion. With every flag down the
    call throws with shards, heap and log untouched, so no [PoolShard::get]
    has run. *)
Theorem get_dispatch p h :
  wf p ->
  exists r p' h' log,
    get FILE opens waits p h = Some (r, p', h', log) /\
    attempts FILE opens waits (index_ p) 0 (fetch_add_index p) h r p' h' /\
    (forall t, cursor_slot p (index_ p) t
               = Z.to_nat (((index_ p + t) mod 2 ^ 32) mod Z.of_nat (length (servers_ p)))) /\
    (forall t, 0 <= index_ p + t < 2 ^ 32 ->
               cursor_slot p (index_ p) t
               = Z.to_nat ((index_ p + t) mod Z.of_nat (length (servers_ p)))) /\
    match r with
    | Return _ => exists k, 0 <= k < 5 /\ index_ p' = u32 (index_ p + 1 + k)
    | Throw e => e = exhausted FILE /\ index_ p' = u32 (index_ p + 6)
    end /\
    ((forall shard, shard ∈ poolShards_ p -> PoolShard.available_ shard = false) ->
     r = Throw (exhausted FILE) /\ poolShards_ p' = poolShards_ p /\
     h' = h /\ log = []).
Proof.
  intros Hwf. unfold get.
  destruct (get_loop_attempts (index_ p) 5 0 (fetch_add_index p) h []
              (wf_fetch_add_index p Hwf)) as (r & p' & h' & log & Hloop & Hatt);
    [lia | reflexivity |].
  exists r, p', h', log. split; [exact Hloop|]. split; [exact Hatt|].
  split; [intros t; reflexivity|].
  split; [intros t Ht; unfold cursor_slot, u32, wrap_unsigned;
          rewrite (Z.mod_small (index_ p + t)) by exact Ht; reflexivity|].
  split.
  - pose proof (attempts_index _ _ _ _ _ _ _ Hatt (index_ p + 1) eq_refl) as Hidx.
    destruct r as [c|e].
    + destruct Hidx as (k & Hk & Hidx). exists k. split; [lia|].
      rewrite Hidx. f_equal. lia.
    + destruct Hidx as (He & Hidx). split; [exact He|]. rewrite Hidx. f_equal. lia.
  - intros Hall.
    destruct (get_loop_all_unavailable (index_ p) 5 0 (fetch_add_index p) h []
                (wf_fetch_add_index p Hwf) Hall) as (p'' & Hloop' & Hshards).
    rewrite Hloop in Hloop'. injection Hloop' as -> -> -> ->.
    repeat split; try reflexivity. exact Hshards.
Qed.

(** C9, amended. The exception [get] throws is the same for every pool:
    its message is the literal of line 68, its payload the file and the line
    of the [throw]. Nothing of the pool's servers enters it. *)
Theorem get_exhausted_is_constant p h e p' h' log :
  get FILE opens waits p h = Some (Throw e, p', h', log) ->
  e = exhausted FILE /\
  what e = "failed to get connection after max retries" /\
  file_ e = FILE /\ line_ e = 68.
Proof.
  intros Hget. apply get_loop_throw in Hget. subst e. repeat split; reflexivity.
Qed.

End Dispatch.

(** ** The explicit constructor of [PoolConfig] *)

Section Timeouts.

Import PoolShard.

(** A shard hands its two timeouts to every connection it makes. *)
Lemma get_passes_shard_timeouts this waits s h :
  idle_ s = [] -> closed_ s = false ->
  kMaxActive_ s = 0 \/ active_ s < kMaxActive_ s ->
  exists c s' h' log,
    get this true waits s h = (Some c, s', h', log) /\
    EvMakeShared (server_ s) (connTimeoutMs_ s) (dataTimeoutMs_ s) ∈ log /\
    connTimeout_ <$> h' !! c = Some (connTimeoutMs_ s) /\
    dataTimeout_ <$> h' !! c = Some (dataTimeoutMs_ s).
Proof.
  intros Hidle Hclosed Hcap. rewrite get_open_success by assumption.
  eexists _, _, _, _. split; [reflexivity|]. split; [log_mem|].
  rewrite lookup_insert_eq. split; reflexivity.
Qed.

(** The timeouts of a shard built from the explicit constructor are 100
    and 100 for all arguments. *)
Lemma explicit_config_timeouts a ct dt mi ma mf :
  connTimeoutMs_ (new a (PoolConfig_explicit ct dt mi ma mf)) = 100 /\
  dataTimeoutMs_ (new a (PoolConfig_explicit ct dt mi ma mf)) = 100.
Proof. split; reflexivity. Qed.

(** C4, on the code. [PoolConfig(250, 500, 10, 100, 5)] stores 100 and 100;
    the first connection of a shard built from it is made with timeouts 100
    and 100, not 250 and 500. *)
Theorem explicit_config_timeouts_dropped :
  let cfg := PoolConfig_explicit 250 500 10 100 5 in
  connTimeoutMs cfg = 100 /\ dataTimeoutMs cfg = 100 /\
  exists s' h' log,
    get 0%nat true [] (new Examples.server1 cfg) ∅ = (Some 0%nat, s', h', log) /\
    log = [EvMakeShared Examples.server1 100 100; EvOpen true] /\
    connTimeout_ <$> h' !! 0%nat = Some 100 /\
    dataTimeout_ <$> h' !! 0%nat = Some 100 /\
    connTimeout_ <$> h' !! 0%nat <> Some 250 /\
    dataTimeout_ <$> h' !! 0%nat <> Some 500.
Proof.
  cbv zeta. split; [reflexivity|]. split; [reflexivity|].
  eexists _, _, _. split; [vm_compute; reflexivity|].
  split; [reflexivity|]. vm_compute. repeat split; discriminate.
Qed.

End Timeouts.

(** ** The properties at the servers of the example program *)

(** C1 as stated fails. Three shards, all available: the first mark-down
    is let through and leaves [numAvailable_] at 2, which is two thirds of
    3: the count has dropped to two thirds by a mark-down. *)
Lemma mark_down_reaches_two_thirds :
  exists p',
    DPool.markAvailable 0%nat false Examples.pool3 = Some p' /\
    Z.of_nat (length (DPool.servers_ p')) = 3 /\
    DPool.numAvailable_ Examples.pool3 = 3 /\
    DPool.numAvailable_ p' = 2 /\
    DPool.numAvailable_ p' * 3 <= Z.of_nat (length (DPool.servers_ p')) * 2.
Proof.
  eexists. split; [vm_compute; reflexivity|].
  vm_compute. repeat split; congruence.
Qed.

(** C2, counterexample. The pool of three servers with its cursor at
    [2^32 - 1] and every [open()] failing: the five tries of [get] call
    [PoolShard::get] on the shards in positions 0, 0, 1, 2, 0, where
    [(local + t) mod N] of the claim gives 0, 1, 2, 0, 1. The sum
    [localIndex + tries] is taken in [unsigned] and wraps before the
    remainder is taken. *)
Lemma cursor_wraps_before_modulo :
  DPool.wf MoreExamples.pool3_wrap /\
  DPool.index_ MoreExamples.pool3_wrap = 2 ^ 32 - 1 /\
  (exists p' h' log,
     DPool.get "dpool.h" (fun _ => false) (fun _ => []) MoreExamples.pool3_wrap ∅
       = Some (DPool.Throw (DPool.exhausted "dpool.h"), p', h', log) /\
     shard_gets log = [0; 0; 1; 2; 0]%nat) /\
  (fun t => Z.to_nat ((DPool.index_ MoreExamples.pool3_wrap + t)
                      mod Z.of_nat (length (DPool.servers_ MoreExamples.pool3_wrap))))
    <$> [0; 1; 2; 3; 4]
  = [0; 1; 2; 0; 1]%nat.
Proof.
  split; [repeat split; vm_compute; congruence|].
  split; [vm_compute; reflexivity|].
  split; [|vm_compute; reflexivity].
  exists (snd (fst (fst MoreExamples.pool3_wrap_got))),
         (snd (fst MoreExamples.pool3_wrap_got)),
         (snd MoreExamples.pool3_wrap_got).
  split; vm_compute; reflexivity.
Qed.

(** C8 as stated fails. The connection at address 0 has come back broken
    once ([fails_] is 1); released again with [broken = true] it is a
    duplicate, and [fails_] stays 1. *)
Lemma duplicate_broken_release_keeps_fails :
  isBorrowed 0%nat (snd Examples.returned_broken) = Some false /\
  PoolShard.fails_ (fst Examples.returned_broken) = 1 /\
  exists s' h' evs victim,
    PoolShard.put 0%nat true (fst Examples.returned_broken) (snd Examples.returned_broken)
      = Some (s', h', evs, victim) /\
    PoolShard.fails_ s' = 1 /\
    PoolShard.fails_ s' <> u32 (PoolShard.fails_ (fst Examples.returned_broken) + 1).
Proof.
  split; [vm_compute; reflexivity|]. split; [vm_compute; reflexivity|].
  eexists _, _, _, _. split; [vm_compute; reflexivity|].
  vm_compute. split; [reflexivity|discriminate].
Qed.

(** C9 as stated fails. Every [open()] fails on the three servers of the
    example: [get] throws, and neither the message nor the rendering of the
    whole exception (message, file, line) contains the [host:port] of any of
    the servers. *)
Lemma exhausted_names_no_endpoint :
  exists e p' h' log,
    DPool.get "dpool.h" (fun _ => false) (fun _ => []) Examples.pool3 ∅
      = Some (DPool.Throw e, p', h', log) /\
    to_string Examples.server1 = "127.0.0.1:6379" /\
    Forall (fun a => contains (to_string a) (what e) = false /\
                     contains (to_string a) (str e) = false /\
                     contains (host a) (str e) = false)
           (DPool.servers_ Examples.pool3).
Proof.
  eexists _, _, _, _. split; [vm_compute; reflexivity|].
  split; [vm_compute; reflexivity|].
  repeat constructor; vm_compute; reflexivity.
Qed.

(** Instances of the theorems above. *)

Lemma markAvailable_quorum_guard_witness :
  (exists p',
     DPool.markAvailable 0%nat false Examples.pool3 = Some p' /\
     p' = DPool.with_numAvailable 2
            (DPool.store_shard 0%nat
               (PoolShard.with_available false Examples.shard1) Examples.pool3)) /\
  DPool.numAvailable_ Examples.pool3_down = 2 /\
  DPool.count_available Examples.pool3_down = 2 /\
  3 * 2 <= DPool.numAvailable_ Examples.pool3_down * 3 /\
  (forall i p',
     DPool.markAvailable i false Examples.pool3_down = Some p' ->
     p' = Examples.pool3_down).
Proof.
  split.
  - apply (proj1 markAvailable_quorum_guard Examples.pool3 0%nat Examples.shard1).
    + repeat split; vm_compute; congruence.
    + reflexivity.
  - destruct (proj2 markAvailable_quorum_guard
                [Examples.server1; Examples.server2; Examples.server3]
                PoolConfig_default 0 Examples.pool3_down)
      as (Hcount & _ & Hthirds & Hdown).
    + discriminate.
    + vm_compute. discriminate.
    + apply rtc_once. apply (DPool.prober_call 0%nat false). vm_compute. reflexivity.
    + split; [reflexivity|]. split; [rewrite <- Hcount; reflexivity|].
      split; [apply Hthirds; reflexivity|].
      intros i p' Hcall. apply (proj1 (Hdown i p' Hcall)). vm_compute. discriminate.
Defined.

Lemma get_dispatch_witness :
  DPool.wf Examples.pool3_down /\
  PoolShard.available_ <$> DPool.poolShards_ Examples.pool3_down = [false; true; true] /\
  DPool.index_ Examples.pool3_down = 0 /\
  exists p' h' log,
    DPool.get "dpool.h" (fun _ => true) (fun _ => []) Examples.pool3_down ∅
      = Some (DPool.Return 0%nat, p', h', log) /\
    shard_gets log = [1%nat] /\
    DPool.index_ p' = 2 /\
    DPool.attempts "dpool.h" (fun _ => true) (fun _ => [])
      (DPool.index_ Examples.pool3_down) 0
      (DPool.fetch_add_index Examples.pool3_down) ∅ (DPool.Return 0%nat) p' h' /\
    DPool.cursor_slot Examples.pool3_down (DPool.index_ Examples.pool3_down) 1
    = Z.to_nat ((DPool.index_ Examples.pool3_down + 1) mod 3).
Proof.
  assert (Hwf : DPool.wf Examples.pool3_down) by (repeat split; vm_compute; congruence).
  split; [exact Hwf|]. split; [vm_compute; reflexivity|].
  split; [vm_compute; reflexivity|].
  destruct (get_dispatch "dpool.h" (fun _ => true) (fun _ => []) Examples.pool3_down ∅ Hwf)
    as (r & p' & h' & log & Hget & Hatt & _ & Hslot & _ & _).
  assert (Hrun : DPool.get "dpool.h" (fun _ => true) (fun _ => []) Examples.pool3_down ∅
                 = Some (MoreExamples.pool3_down_got)) by (vm_compute; reflexivity).
  rewrite Hrun in Hget. injection Hget as <- <- <- <-.
  eexists _, _, _. split; [exact Hrun|].
  split; [vm_compute; reflexivity|]. split; [vm_compute; reflexivity|].
  split; [exact Hatt|].
  apply (Hslot 1). vm_compute. split; congruence.
Defined.

Lemma capacity_invariant_preserved_witness :
  INT_MIN < PoolShard.active_ (fst Examples.lent) /\
  Interleaving.capacity (fst Examples.lent) /\
  Interleaving.capacity (fst Examples.returned_broken).
Proof.
  assert (Hlo : INT_MIN < PoolShard.active_ (fst Examples.lent))
    by (vm_compute; reflexivity).
  assert (Hcap : Interleaving.capacity (fst Examples.lent))
    by (split; vm_compute; congruence).
  split; [exact Hlo|]. split; [exact Hcap|].
  refine (proj1 capacity_invariant_preserved
            (fst Examples.lent, snd Examples.lent)
            (fst Examples.returned_broken, snd Examples.returned_broken) _ Hlo Hcap).
  apply (Interleaving.step_put 0%nat true _ _ _ _ [EvNotifyOne] (Some 0%nat)).
  vm_compute. reflexivity.
Defined.

Lemma get_open_failure_rollback_witness :
  exists s' log,
    PoolShard.get 0%nat false [] Examples.shard1 ∅ = (None, s', ∅, log) /\
    PoolShard.fails_ s' = 1 /\
    numDialFail (PoolShard.stats_ s') = 1 /\
    PoolShard.active_ s' = 0 /\
    numGet (PoolShard.stats_ s') = 1 /\
    numDial (PoolShard.stats_ s') = 1.
Proof.
  destruct (get_open_failure_rollback 0%nat [] Examples.shard1 ∅)
    as (s' & log & Hget & Hf & Hdf & Ha & Hg & Hd & _).
  - split; vm_compute; congruence.
  - reflexivity.
  - reflexivity.
  - right. reflexivity.
  - exists s', log. repeat split; assumption.
Defined.

Lemma put_duplicate_frame_witness :
  isBorrowed 0%nat (snd Examples.returned_broken) = Some false /\
  numPut (PoolShard.stats_ (fst Examples.returned_broken)) = 1 /\
  exists s',
    PoolShard.put 0%nat true (fst Examples.returned_broken) (snd Examples.returned_broken)
    = Some (s', snd Examples.returned_broken, [], None) /\
    numPut (PoolShard.stats_ s') = 2 /\
    PoolShard.idle_ s' = PoolShard.idle_ (fst Examples.returned_broken) /\
    PoolShard.active_ s' = PoolShard.active_ (fst Examples.returned_broken) /\
    PoolShard.fails_ s' = PoolShard.fails_ (fst Examples.returned_broken).
Proof.
  assert (Hb : isBorrowed 0%nat (snd Examples.returned_broken) = Some false)
    by (vm_compute; reflexivity).
  split; [exact Hb|]. split; [reflexivity|].
  destruct (put_duplicate_frame 0%nat true (fst Examples.returned_broken)
              (snd Examples.returned_broken) Hb) as (Hput & Hframe).
  eexists. split; [exact Hput|].
  destruct (Hframe _ _ _ _ Hput) as (Hnum & Hidle & Hact & Hfails & _).
  split; [|split; [exact Hidle|split; [exact Hact|exact Hfails]]].
  rewrite Hnum.
  - reflexivity.
  - vm_compute. split; discriminate.
  - vm_compute. reflexivity.
Defined.


Lemma fails_counter_accounting_witness :
  (exists s' h' log,
     PoolShard.get 0%nat false [] (fst Examples.lent) (snd Examples.lent)
       = (None, s', h', log) /\
     PoolShard.fails_ s' = u32 (PoolShard.fails_ (fst Examples.lent) + 1)) /\
  (exists s' h' evs victim,
     PoolShard.put 0%nat true (fst Examples.lent) (snd Examples.lent)
       = Some (s', h', evs, victim) /\
     PoolShard.fails_ s' = u32 (PoolShard.fails_ (fst Examples.lent) + 1)) /\
  PoolShard.kMaxFails_ Examples.shard1 = 5.
Proof.
  destruct (fails_counter_accounting 0%nat [] (fst Examples.lent) (snd Examples.lent) 0%nat)
    as (Hget & Hput & _ & Hmax).
  split; [|split].
  - apply Hget; [reflexivity | reflexivity | right; reflexivity].
  - apply Hput. vm_compute. reflexivity.
  - apply (Hmax Examples.server1 PoolConfig_default). split; vm_compute; congruence.
Defined.

Lemma get_exhausted_is_constant_witness :
  exists e p' h' log,
    DPool.get "dpool.h" (fun _ => false) (fun _ => []) Examples.pool3 ∅
      = Some (DPool.Throw e, p', h', log) /\
    e = DPool.exhausted "dpool.h" /\
    what e = "failed to get connection after max retries" /\
    file_ e = "dpool.h" /\ line_ e = 68.
Proof.
  assert (Hrun : exists e p' h' log,
             DPool.get "dpool.h" (fun _ => false) (fun _ => []) Examples.pool3 ∅
             = Some (DPool.Throw e, p', h', log))
    by (eexists _, _, _, _; vm_compute; reflexivity).
  destruct Hrun as (e & p' & h' & log & Hrun).
  exists e, p', h', log. split; [exact Hrun|].
  exact (get_exhausted_is_constant "dpool.h" (fun _ => false) (fun _ => [])
           Examples.pool3 ∅ e p' h' log Hrun).
Defined.

Lemma get_never_waits_witness :
  PoolShard.idle_ (fst Examples.full) = [] /\
  PoolShard.kMaxActive_ (fst Examples.full) = 1 /\
  PoolShard.active_ (fst Examples.full) = 1 /\
  PoolShard.get 0%nat true [no_timeout; no_timeout] (fst Examples.full) (snd Examples.full)
  = (None,
     PoolShard.with_stats (numGet_incr (PoolShard.stats_ (fst Examples.full)))
       (fst Examples.full),
     snd Examples.full, []).
Proof.
  split; [reflexivity|]. split; [reflexivity|]. split; [reflexivity|].
  apply (proj2 (proj2 (get_never_waits 0%nat true [no_timeout; no_timeout]
                         (fst Examples.full) (snd Examples.full)))).
  - reflexivity.
  - reflexivity.
  - reflexivity.
  - vm_compute. congruence.
Defined.

(** * Further properties of the shard *)

Section ShardMethods.

Import PoolShard.

Implicit Types (s : t) (h : heap) (c pc : ptr).

(** [get] by cases on the state it finds. *)
Lemma get_cases this open_ok waits s h :
  let s1 := with_stats (numGet_incr (stats_ s)) s in
  get this open_ok waits s h =
  match idle_ s with
  | c :: rest => (Some c, with_idle rest s1, setBorrowed c true h, [])
  | [] =>
    if closed_ s then (None, s1, h, [])
    else if (kMaxActive_ s =? 0) || (active_ s <? kMaxActive_ s) then
      let s2 := with_stats (numDial_incr (stats_ s1)) (with_active (i32 (active_ s + 1)) s1) in
      let log := [EvMakeShared (server_ s) (connTimeoutMs_ s) (dataTimeoutMs_ s);
                  EvOpen open_ok] in
      if open_ok then
        (Some (fresh (dom h)), with_fails 0 s2,
         <[fresh (dom h) := mkPooledObject (Some this) true (server_ s)
                              (connTimeoutMs_ s) (dataTimeoutMs_ s)]> h, log)
      else (None, dial_fail_locked (dial_fail_atomic s2), h, log ++ [EvNotifyOne])
    else (None, s1, h, [])
  end.
Proof.
  cbv zeta. unfold get. rewrite get_loop_eq. unfold get_locked.
  cbn [idle_ closed_ kMaxActive_ active_ with_stats].
  destruct (idle_ s) as [|c rest]; [|reflexivity].
  destruct (closed_ s); [reflexivity|].
  destruct ((kMaxActive_ s =? 0) || (active_ s <? kMaxActive_ s)); [|reflexivity].
  destruct open_ok; reflexivity.
Qed.

(** [put] of a borrowed connection, by cases. *)
Lemma put_cases pc broken s h :
  isBorrowed pc h = Some true ->
  let s1 := put_fails broken (with_stats (numPut_incr (stats_ s)) s) in
  let gone s2 :=
    with_stats (numClose_incr (stats_ s2)) (with_active (i32 (active_ s2 - 1)) s2) in
  put pc broken s h =
  Some (if negb (closed_ s) && negb broken then
          if Z.of_nat (length (pc :: idle_ s)) >? size_t (kMaxIdle_ s) then
            (gone (with_stats (numEvict_incr (stats_ s1))
                     (with_idle (removelast (pc :: idle_ s)) s1)),
             setBorrowed pc false h, [EvNotifyOne], last (pc :: idle_ s))
          else (with_idle (pc :: idle_ s) s1, setBorrowed pc false h, [EvNotifyOne], None)
        else (gone s1, setBorrowed pc false h, [EvNotifyOne], Some pc)).
Proof.
  intros Hb. cbv zeta. unfold put. rewrite Hb. cbn [negb mbind option_bind].
  unfold put_park.
  assert (Hc : closed_ (put_fails broken (with_stats (numPut_incr (stats_ s)) s))
               = closed_ s) by (destruct broken; reflexivity).
  assert (Hi : idle_ (put_fails broken (with_stats (numPut_incr (stats_ s)) s))
               = idle_ s) by (destruct broken; reflexivity).
  assert (Hk : kMaxIdle_ (put_fails broken (with_stats (numPut_incr (stats_ s)) s))
               = kMaxIdle_ s) by (destruct broken; reflexivity).
  rewrite Hc, Hi, Hk.
  destruct (negb (closed_ s) && negb broken); [|reflexivity].
  cbv zeta.
  destruct (Z.of_nat (length (pc :: idle_ s)) >? size_t (kMaxIdle_ s)); [|reflexivity].
  destruct (last (pc :: idle_ s)) as [v|] eqn:Hlast; [reflexivity|].
  apply last_None in Hlast. discriminate.
Qed.

(** *** [close] and [empty] *)

Lemma empty_loop_fields fuel :
  forall s,
    (length (idle_ s) <= fuel)%nat ->
    Z.of_nat (length (idle_ s)) <= active_ s <= INT_MAX ->
    0 <= numClose (stats_ s) ->
    numClose (stats_ s) + Z.of_nat (length (idle_ s)) <= LONG_MAX ->
    let s' := empty_loop fuel s in
    idle_ s' = [] /\
    active_ s' = active_ s - Z.of_nat (length (idle_ s)) /\
    numClose (stats_ s') = numClose (stats_ s) + Z.of_nat (length (idle_ s)) /\
    closed_ s' = closed_ s /\ available_ s' = available_ s /\ fails_ s' = fails_ s /\
    same_config s s'.
Proof.
  induction fuel as [|fuel IH]; intros s Hfuel Hact Hc0 Hc1; cbv zeta.
  - destruct (idle_ s) eqn:Hidle; [|simpl in Hfuel; lia].
    simpl. rewrite Hidle. simpl. unfold same_config. repeat split; lia.
  - simpl. unfold empty_iter. destruct (idle_ s) as [|c rest] eqn:Hidle.
    + rewrite Hidle. simpl. unfold same_config. repeat split; lia.
    + rewrite length_cons in *.
      assert (Ha : i32 (active_ s - 1) = active_ s - 1).
      { apply i32_id. unfold in_int, INT_MIN, INT_MAX in *.
        change (2 ^ 31) with 2147483648 in *. lia. }
      assert (Hn : incr_long (numClose (stats_ s)) = numClose (stats_ s) + 1).
      { apply incr_long_succ; unfold in_long, LONG_MAX in *;
          change (2 ^ 63) with 9223372036854775808 in *; lia. }
      set (s1 := with_stats _ _).
      assert (Hi1 : idle_ s1 = rest) by reflexivity.
      assert (Ha1 : active_ s1 = active_ s - 1) by exact Ha.
      assert (Hn1 : numClose (stats_ s1) = numClose (stats_ s) + 1) by exact Hn.
      destruct (IH s1) as (Hi & Hac & Hnc & Hcl & Hav & Hf & Hcfg);
        rewrite ?Hi1, ?Ha1, ?Hn1; try lia.
      rewrite Hi1, Ha1 in Hac. rewrite Hi1, Hn1 in Hnc.
      split; [exact Hi|]. split; [lia|]. split; [lia|].
      split; [exact Hcl|]. split; [exact Hav|]. split; [exact Hf|]. exact Hcfg.
Qed.

(** X1. [close] on a shard that is not closed sets [closed_], destroys every
    parked connection ([active_] goes down and [numClose] up by their
    number, the idle list ends empty) and leaves the failure count and the
    availability flag alone. A second [close] changes nothing. *)
Theorem close_releases_idle s :
  closed_ s = false ->
  Z.of_nat (length (idle_ s)) <= active_ s <= INT_MAX ->
  0 <= numClose (stats_ s) ->
  numClose (stats_ s) + Z.of_nat (length (idle_ s)) <= LONG_MAX ->
  closed_ (close s) = true /\ idle_ (close s) = [] /\
  active_ (close s) = active_ s - Z.of_nat (length (idle_ s)) /\
  numClose (stats_ (close s)) = numClose (stats_ s) + Z.of_nat (length (idle_ s)) /\
  available_ (close s) = available_ s /\ fails_ (close s) = fails_ s /\
  same_config s (close s) /\
  close (close s) = close s.
Proof.
  intros Hclosed Hact Hc0 Hc1.
  assert (Hcl : closed_ (close s) = true) by (apply close_drains, Hclosed).
  assert (Heq : close s
                = empty_loop (length (idle_ (with_closed true s))) (with_closed true s)).
  { unfold close, empty. rewrite Hclosed. reflexivity. }
  destruct (empty_loop_fields (length (idle_ (with_closed true s))) (with_closed true s))
    as (Hi & Hac & Hnc & _ & Hav & Hf & Hcfg); try assumption; [reflexivity|].
  rewrite <- Heq in Hi, Hac, Hnc, Hav, Hf, Hcfg.
  split; [exact Hcl|]. split; [exact Hi|]. split; [exact Hac|]. split; [exact Hnc|].
  split; [exact Hav|]. split; [exact Hf|]. split; [exact Hcfg|].
  unfold close at 1. rewrite Hcl. reflexivity.
Qed.

(** X2. After [close], a [get] returns null without dialling: [numGet] is one
    more and nothing else moves. Between the exchange on [closed_] and the
    drain, a [get] still hands out the connection at the front. *)
Theorem get_on_closed this open_ok waits s h :
  (closed_ s = false ->
   get this open_ok waits (close s) h =
     (None, with_stats (numGet_incr (stats_ (close s))) (close s), h, [])) /\
  (forall c rest,
     closed_ s = true -> idle_ s = c :: rest ->
     get this open_ok waits s h =
       (Some c, with_idle rest (with_stats (numGet_incr (stats_ s)) s),
        setBorrowed c true h, [])).
Proof.
  split.
  - intros Hclosed. destruct (close_drains s Hclosed) as [Hidle Hcl].
    rewrite get_cases. cbv zeta. rewrite Hidle, Hcl. reflexivity.
  - intros c rest _ Hidle. rewrite get_cases. cbv zeta. rewrite Hidle. reflexivity.
Qed.

(** *** [put] *)

(** X3. A borrowed connection released broken, or released to a closed shard,
    is never parked: the idle list is as before, the connection is the one
    let go, [active_] is one less and [numClose] one more, nothing is
    evicted, and the connection is no longer borrowed. *)
Theorem put_broken_or_closed_destroys pc broken s h :
  isBorrowed pc h = Some true ->
  closed_ s = true \/ broken = true ->
  INT_MIN < active_ s <= INT_MAX ->
  exists s' h',
    put pc broken s h = Some (s', h', [EvNotifyOne], Some pc) /\
    idle_ s' = idle_ s /\ active_ s' = active_ s - 1 /\
    numClose (stats_ s') = incr_long (numClose (stats_ s)) /\
    numEvict (stats_ s') = numEvict (stats_ s) /\
    numPut (stats_ s') = incr_long (numPut (stats_ s)) /\
    closed_ s' = closed_ s /\
    isBorrowed pc h' = Some false.
Proof.
  intros Hb Hwhy Hact. rewrite (put_cases pc broken s h Hb). cbv zeta.
  assert (Hcond : negb (closed_ s) && negb broken = false).
  { destruct Hwhy as [->| ->]; [reflexivity|apply andb_false_r]. }
  rewrite Hcond. eexists _, _. split; [reflexivity|].
  assert (Ha : i32 (active_ s - 1) = active_ s - 1).
  { apply i32_id. unfold in_int, INT_MIN, INT_MAX in *.
    change (2 ^ 31) with 2147483648 in *. lia. }
  destruct (isBorrowed_lookup _ _ _ Hb) as (o & Ho & _).
  destruct broken; cbn; rewrite Ha;
    (repeat split; try reflexivity); apply isBorrowed_setBorrowed; eauto.
Qed.

(** X4. A clean release to an open shard whose idle list is full parks the
    connection at the front and lets go of the connection at the back: the
    list keeps its length, [numEvict] and [numClose] are one more, [active_]
    is one less. With [maxIdle = 0] the connection released is the one let
    go. *)
Theorem put_evicts_tail pc s h :
  isBorrowed pc h = Some true ->
  closed_ s = false ->
  0 <= kMaxIdle_ s <= INT_MAX ->
  kMaxIdle_ s <= Z.of_nat (length (idle_ s)) ->
  INT_MIN < active_ s <= INT_MAX ->
  exists s' h' victim,
    put pc false s h = Some (s', h', [EvNotifyOne], Some victim) /\
    last (pc :: idle_ s) = Some victim /\
    idle_ s' = removelast (pc :: idle_ s) /\
    length (idle_ s') = length (idle_ s) /\
    (forall l v, idle_ s = l ++ [v] -> victim = v /\ idle_ s' = pc :: l) /\
    (idle_ s = [] -> victim = pc /\ idle_ s' = []) /\
    numEvict (stats_ s') = incr_long (numEvict (stats_ s)) /\
    numClose (stats_ s') = incr_long (numClose (stats_ s)) /\
    active_ s' = active_ s - 1 /\ fails_ s' = 0.
Proof.
  intros Hb Hclosed Hmax Hfull Hact. rewrite (put_cases pc false s h Hb). cbv zeta.
  rewrite Hclosed. cbn [negb andb].
  rewrite size_t_id
    by (unfold INT_MAX in Hmax; change (2 ^ 31) with 2147483648 in Hmax;
        change (2 ^ 64) with 18446744073709551616; lia).
  destruct (Z.gtb_spec (Z.of_nat (length (pc :: idle_ s))) (kMaxIdle_ s)) as [_|Hle];
    [|rewrite length_cons in Hle; lia].
  destruct (last (pc :: idle_ s)) as [victim|] eqn:Hlast;
    [|apply last_None in Hlast; discriminate].
  assert (Ha : i32 (active_ s - 1) = active_ s - 1).
  { apply i32_id. unfold in_int, INT_MIN, INT_MAX in *.
    change (2 ^ 31) with 2147483648 in *. lia. }
  eexists _, _, victim. split; [reflexivity|].
  cbn [idle_ active_ fails_ stats_ with_stats with_active with_idle with_fails put_fails
       numEvict numClose numEvict_incr numClose_incr numPut_incr].
  rewrite Ha. split; [reflexivity|]. split; [reflexivity|].
  split; [apply length_removelast_cons|]. split; [|split].
  - intros l v Hl. rewrite Hl in Hlast |- *. rewrite app_comm_cons in Hlast |- *.
    rewrite last_snoc in Hlast. split; [congruence|apply removelast_last].
  - intros Hnil. rewrite Hnil in Hlast |- *. simpl in Hlast. split; [congruence|reflexivity].
  - repeat split; reflexivity.
Qed.

(** X5. After a release of a borrowed connection, whatever its flag and
    whatever became of the connection, a second release of it changes
    [numPut] and nothing else. *)
Theorem put_twice pc broken1 broken2 s h :
  isBorrowed pc h = Some true ->
  exists s1 h1 evs victim,
    put pc broken1 s h = Some (s1, h1, evs, victim) /\
    put pc broken2 s1 h1 =
      Some (with_stats (numPut_incr (stats_ s1)) s1, h1, [], None).
Proof.
  intros Hb. destruct (put_borrowed pc broken1 s h Hb) as (s1 & evs & v & Hput & _).
  eexists _, _, _, _. split; [exact Hput|].
  destruct (isBorrowed_lookup _ _ _ Hb) as (o & Ho & _).
  unfold put. rewrite isBorrowed_setBorrowed by eauto. reflexivity.
Qed.

(** *** Limits that are negative *)

(** X6. The three limits are [int]s in [PoolConfig]. A negative [maxIdle] is
    compared as a [size_t]: a clean release always parks and nothing is ever
    evicted. A negative [maxActive] is neither zero nor above a count that is
    not negative: a shard with nothing idle never dials. A negative
    [maxFails] becomes [2^32 + maxFails] in the [uint32_t] the shard keeps:
    the shard is suspectable only from that count on. *)
Theorem negative_limits a cfg :
  (forall pc s h,
     isBorrowed pc h = Some true -> closed_ s = false ->
     INT_MIN <= kMaxIdle_ s < 0 -> Z.of_nat (length (idle_ s)) < 2 ^ 63 ->
     exists s' h',
       put pc false s h = Some (s', h', [EvNotifyOne], None) /\
       idle_ s' = pc :: idle_ s /\ active_ s' = active_ s) /\
  (forall this open_ok waits s h,
     kMaxActive_ s < 0 -> 0 <= active_ s -> idle_ s = [] ->
     get this open_ok waits s h = (None, with_stats (numGet_incr (stats_ s)) s, h, [])) /\
  (INT_MIN <= maxFails cfg < 0 ->
   kMaxFails_ (new a cfg) = 2 ^ 32 + maxFails cfg /\
   forall s, kMaxFails_ s = kMaxFails_ (new a cfg) ->
             (isSuspectable s = true <-> 2 ^ 32 + maxFails cfg <= fails_ s)).
Proof.
  split; [|split].
  - intros pc s h Hb Hclosed Hneg Hlen. rewrite (put_cases pc false s h Hb). cbv zeta.
    rewrite Hclosed. cbn [negb andb].
    assert (Hsz : size_t (kMaxIdle_ s) = 2 ^ 64 + kMaxIdle_ s).
    { unfold size_t, wrap_unsigned, INT_MIN in *.
      change (2 ^ 31) with 2147483648 in *. change (2 ^ 64) with 18446744073709551616.
      symmetry. apply (Z.mod_unique_pos _ _ (-1)). lia. lia. }
    rewrite Hsz.
    destruct (Z.gtb_spec (Z.of_nat (length (pc :: idle_ s))) (2 ^ 64 + kMaxIdle_ s))
      as [Hgt|_].
    + rewrite length_cons in Hgt. unfold INT_MIN in Hneg.
      change (2 ^ 31) with 2147483648 in *. change (2 ^ 64) with 18446744073709551616 in *.
      change (2 ^ 63) with 9223372036854775808 in *. lia.
    + eexists _, _. repeat split; reflexivity.
  - intros this open_ok waits s h Hneg Hact Hidle. rewrite get_cases. cbv zeta.
    rewrite Hidle.
    destruct (closed_ s); [reflexivity|].
    rewrite (proj2 (Z.eqb_neq _ _)) by lia. rewrite (proj2 (Z.ltb_ge _ _)) by lia.
    reflexivity.
  - intros Hneg.
    assert (Hk : kMaxFails_ (new a cfg) = 2 ^ 32 + maxFails cfg).
    { cbn [new kMaxFails_]. unfold u32, wrap_unsigned, INT_MIN in *.
      change (2 ^ 31) with 2147483648 in *. change (2 ^ 32) with 4294967296.
      symmetry. apply (Z.mod_unique_pos _ _ (-1)). lia. lia. }
    split; [exact Hk|]. intros s Hs. unfold isSuspectable. rewrite Hs, Hk, Z.geb_le.
    reflexivity.
Qed.

(** Conjunctions and alternatives of equations between fields and of
    memberships in a written-out log. *)
Ltac fields_done :=
  repeat match goal with
         | |- _ /\ _ => split
         | |- _ \/ _ => first [ left; solve [fields_done] | right; solve [fields_done] ]
         | |- exists _, _ => eexists
         | |- _ = _ => reflexivity
         | |- _ ∈ _ => log_mem
         | |- _ ∉ _ => log_mem
         end.

(** *** The counters *)

(** What [get] does to the fields of the shard, in every case. *)
Lemma get_fields this open_ok waits s h r s' h' log :
  get this open_ok waits s h = (r, s', h', log) ->
  numGet (stats_ s') = incr_long (numGet (stats_ s)) /\
  numPut (stats_ s') = numPut (stats_ s) /\
  numBroken (stats_ s') = numBroken (stats_ s) /\
  numEvict (stats_ s') = numEvict (stats_ s) /\
  numClose (stats_ s') = numClose (stats_ s) /\
  (numDial (stats_ s') = incr_long (numDial (stats_ s)) /\ EvOpen open_ok ∈ log \/
   numDial (stats_ s') = numDial (stats_ s) /\ log = []) /\
  (numDialFail (stats_ s') = incr_long (numDialFail (stats_ s)) /\
   open_ok = false /\ r = None /\ EvOpen false ∈ log \/
   numDialFail (stats_ s') = numDialFail (stats_ s) /\ EvOpen false ∉ log) /\
  closed_ s' = closed_ s /\ available_ s' = available_ s /\ same_config s s' /\
  (idle_ s' = idle_ s \/ exists c, r = Some c /\ idle_ s = c :: idle_ s').
Proof.
  rewrite get_cases. cbv zeta. unfold same_config.
  destruct (idle_ s) as [|c rest] eqn:Hidle;
    [destruct (closed_ s) eqn:Hclosed;
     [|destruct ((kMaxActive_ s =? 0) || (active_ s <? kMaxActive_ s));
       [destruct open_ok|]]|];
    intros [= <- <- <- <-]; cbn; rewrite ?Hidle, ?Hclosed; fields_done.
Qed.

(** X7. Every [get] counts itself once in [numGet], whatever it returns, and
    leaves the counters of [put] alone. It counts a dial exactly when it
    made one (then the log has its [open()]), and a failed dial exactly when
    that [open()] threw. It never changes [closed_], the availability flag or
    a limit, and the idle list only ever loses its front. *)
Theorem get_counts this open_ok waits s h r s' h' log :
  get this open_ok waits s h = (r, s', h', log) ->
  numGet (stats_ s') = incr_long (numGet (stats_ s)) /\
  numPut (stats_ s') = numPut (stats_ s) /\
  numBroken (stats_ s') = numBroken (stats_ s) /\
  numEvict (stats_ s') = numEvict (stats_ s) /\
  numClose (stats_ s') = numClose (stats_ s) /\
  (numDial (stats_ s') = incr_long (numDial (stats_ s)) /\ EvOpen open_ok ∈ log \/
   numDial (stats_ s') = numDial (stats_ s) /\ log = []) /\
  (numDialFail (stats_ s') = incr_long (numDialFail (stats_ s)) /\
   open_ok = false /\ r = None /\ EvOpen false ∈ log \/
   numDialFail (stats_ s') = numDialFail (stats_ s) /\ EvOpen false ∉ log) /\
  closed_ s' = closed_ s /\ available_ s' = available_ s /\ same_config s s' /\
  (idle_ s' = idle_ s \/ exists c, r = Some c /\ idle_ s = c :: idle_ s').
Proof. apply get_fields. Qed.

(** [getShardStats] reports the availability flag, [active_] and the seven
    counters under the address its argument came with, and zeroes the
    counters: the shard is otherwise as before, and a second readout right
    after reports the same flag and [active_] with every counter at 0. *)
Theorem getShardStats_reads_and_resets st st2 s :
  let '(out, s1) := getShardStats st s in
  let '(out2, s2) := getShardStats st2 s1 in
  out = mkPoolStats (server st) (available_ s) (active_ s) (numGet (stats_ s))
          (numPut (stats_ s)) (numBroken (stats_ s)) (numDial (stats_ s))
          (numDialFail (stats_ s)) (numEvict (stats_ s)) (numClose (stats_ s)) /\
  s1 = with_stats (PoolStats_reset (stats_ s)) s /\
  active_ s1 = active_ s /\ idle_ s1 = idle_ s /\ fails_ s1 = fails_ s /\
  out2 = mkPoolStats (server st2) (available_ s) (active_ s) 0 0 0 0 0 0 0 /\
  s2 = s1.
Proof. cbn. repeat split; reflexivity. Qed.

(** *** Consecutive failures *)

Lemma failing_get_fields this waits s h :
  idle_ s = [] -> closed_ s = false ->
  kMaxActive_ s = 0 \/ active_ s < kMaxActive_ s -> in_int (active_ s) ->
  let s' := snd (fst (fst (get this false waits s h))) in
  fails_ s' = u32 (fails_ s + 1) /\ idle_ s' = [] /\ closed_ s' = false /\
  active_ s' = active_ s /\ same_config s s'.
Proof.
  intros Hidle Hclosed Hcap Hact. cbv zeta. rewrite get_cases. cbv zeta.
  rewrite Hidle, Hclosed.
  assert (Hc : (kMaxActive_ s =? 0) || (active_ s <? kMaxActive_ s) = true).
  { destruct Hcap as [->|Hlt]; [reflexivity|].
    rewrite (proj2 (Z.ltb_lt _ _) Hlt). apply orb_true_r. }
  rewrite Hc. cbn. rewrite (i32_incr_decr _ Hact), Hidle, Hclosed.
  unfold same_config. repeat split; reflexivity.
Qed.

Lemma failing_gets_fields n this h :
  forall s,
    idle_ s = [] -> closed_ s = false ->
    kMaxActive_ s = 0 \/ active_ s < kMaxActive_ s -> in_int (active_ s) ->
    let s' := failing_gets n this s h in
    u32 (fails_ s') = u32 (fails_ s + Z.of_nat n) /\
    (n <> O -> fails_ s' = u32 (fails_ s + Z.of_nat n)) /\
    idle_ s' = [] /\ closed_ s' = false /\ active_ s' = active_ s /\
    kMaxFails_ s' = kMaxFails_ s /\ kMaxActive_ s' = kMaxActive_ s.
Proof.
  induction n as [|n IH]; intros s Hidle Hclosed Hcap Hact; cbv zeta.
  - simpl. rewrite Z.add_0_r. repeat split; try assumption; try reflexivity. congruence.
  - cbn [failing_gets].
    destruct (failing_get_fields this [] s h Hidle Hclosed Hcap Hact)
      as (Hf & Hi & Hc & Ha & Hcfg).
    set (s1 := snd (fst (fst (get this false [] s h)))) in *.
    destruct Hcfg as (_ & HmaxA & _ & HmaxF & _).
    destruct (IH s1) as (Hf' & _ & Hi' & Hc' & Ha' & HF' & HA');
      try assumption; [rewrite HmaxA, Ha; exact Hcap | rewrite Ha; exact Hact |].
    assert (Hsum : u32 (fails_ s1 + Z.of_nat n) = u32 (fails_ s + Z.of_nat (S n))).
    { rewrite Hf, u32_add_succ. f_equal. lia. }
    assert (Hfinal : fails_ (failing_gets n this s1 h) = u32 (fails_ s + Z.of_nat (S n))).
    { destruct n as [|n'].
      - simpl. rewrite Hf. reflexivity.
      - destruct (IH s1) as (_ & Hne & _);
          try assumption; [rewrite HmaxA, Ha; exact Hcap | rewrite Ha; exact Hact |].
        rewrite Hne by discriminate. exact Hsum. }
    split; [rewrite Hf'; exact Hsum|]. split; [intros _; exact Hfinal|].
    split; [exact Hi'|]. split; [exact Hc'|]. split; [congruence|].
    split; congruence.
Qed.

(** X9. Failures in a row add up: after [n] calls of [get] that each dial and
    fail, starting from a count of 0, [fails_] is [n] and the shard is
    suspectable exactly when [n] has reached [kMaxFails_]; [active_] is where
    it was. One [get] that opens then puts the count back to 0, and the shard
    is no longer suspectable (for a positive [kMaxFails_]). *)
Theorem consecutive_open_failures n this s h :
  idle_ s = [] -> closed_ s = false ->
  kMaxActive_ s = 0 \/ active_ s < kMaxActive_ s -> in_int (active_ s) ->
  fails_ s = 0 -> Z.of_nat n <= UINT_MAX ->
  let s' := failing_gets n this s h in
  fails_ s' = Z.of_nat n /\
  (isSuspectable s' = true <-> kMaxFails_ s <= Z.of_nat n) /\
  active_ s' = active_ s /\
  exists c s'' h'' log,
    get this true [] s' h = (Some c, s'', h'', log) /\
    fails_ s'' = 0 /\ (0 < kMaxFails_ s -> isSuspectable s'' = false).
Proof.
  intros Hidle Hclosed Hcap Hact Hzero Hn. cbv zeta.
  destruct (failing_gets_fields n this h s Hidle Hclosed Hcap Hact)
    as (_ & Hne & Hi & Hc & Ha & HF & HA).
  assert (Hf : fails_ (failing_gets n this s h) = Z.of_nat n).
  { destruct n as [|n']; [exact Hzero|].
    rewrite Hne by discriminate. rewrite Hzero. apply u32_id.
    unfold in_uint. lia. }
  split; [exact Hf|]. split; [|split; [exact Ha|]].
  - unfold isSuspectable. rewrite Hf, HF, Z.geb_le. reflexivity.
  - rewrite get_cases. cbv zeta. rewrite Hi, Hc.
    assert (Hcond : (kMaxActive_ (failing_gets n this s h) =? 0)
                    || (active_ (failing_gets n this s h)
                        <? kMaxActive_ (failing_gets n this s h)) = true).
    { rewrite HA, Ha. destruct Hcap as [->|Hlt]; [reflexivity|].
      rewrite (proj2 (Z.ltb_lt _ _) Hlt). apply orb_true_r. }
    rewrite Hcond. eexists _, _, _, _. split; [reflexivity|]. split; [reflexivity|].
    intros Hpos. unfold isSuspectable. cbn. rewrite HF.
    destruct (Z.geb_spec 0 (kMaxFails_ s)); [lia|reflexivity].
Qed.

End ShardMethods.

(** * Further properties of the pool *)

Section Ownership.

Import DPool.

Implicit Types (p : t) (h : heap) (c pc : ptr) (i : shard_ref).

Lemma setBorrowed_lookup c v h c0 o :
  h !! c0 = Some o ->
  exists o', setBorrowed c v h !! c0 = Some o' /\ same_owner o o' /\
             (c0 = c -> borrowed_ o' = v).
Proof.
  intros Ho. unfold setBorrowed. destruct (decide (c = c0)) as [->|Hne].
  - rewrite lookup_alter_eq, Ho. eexists. repeat split.
  - rewrite lookup_alter_ne, Ho by exact Hne. exists o. repeat split. congruence.
Qed.

Lemma setBorrowed_lookup_inv c v h c0 o' :
  setBorrowed c v h !! c0 = Some o' -> exists o, h !! c0 = Some o /\ same_owner o o'.
Proof.
  unfold setBorrowed. destruct (decide (c = c0)) as [->|Hne].
  - rewrite lookup_alter_eq. destruct (h !! c0) as [o|]; [|discriminate].
    intros [= <-]. exists o. repeat split.
  - rewrite lookup_alter_ne by exact Hne. intros Ho. exists o'. repeat split. exact Ho.
Qed.

Lemma fresh_not_in_heap h : h !! fresh (dom h) = None.
Proof. apply not_elem_of_dom. apply is_fresh. Qed.

(** What a [get] of a shard does to the heap and to the idle list. *)
Lemma shard_get_heap this open_ok waits s h r s' h' log :
  PoolShard.get this open_ok waits s h = (r, s', h', log) ->
  (forall c, c ∈ PoolShard.idle_ s' -> c ∈ PoolShard.idle_ s) /\
  PoolShard.server_ s' = PoolShard.server_ s /\
  (forall c o, h !! c = Some o -> exists o', h' !! c = Some o' /\ same_owner o o') /\
  (forall c o', h' !! c = Some o' ->
     (exists o, h !! c = Some o /\ same_owner o o') \/
     (dataSource_ o' = Some this /\ serverAddr_ o' = PoolShard.server_ s)) /\
  (forall c, r = Some c ->
     (c ∈ PoolShard.idle_ s /\
      forall o, h !! c = Some o ->
        exists o', h' !! c = Some o' /\ borrowed_ o' = true /\ same_owner o o') \/
     (exists o', h' !! c = Some o' /\ borrowed_ o' = true /\
                 dataSource_ o' = Some this)).
Proof.
  rewrite get_cases. cbv zeta.
  assert (Hsame : forall (s0 : PoolShard.t) (r0 : option ptr) (l0 : list event),
            PoolShard.idle_ s = [] -> r0 = None ->
            PoolShard.idle_ s0 = [] -> PoolShard.server_ s0 = PoolShard.server_ s ->
            (r0, s0, h, l0) = (r, s', h', log) ->
            (forall c, c ∈ PoolShard.idle_ s' -> c ∈ PoolShard.idle_ s) /\
            PoolShard.server_ s' = PoolShard.server_ s /\
            (forall c o, h !! c = Some o ->
               exists o', h' !! c = Some o' /\ same_owner o o') /\
            (forall c o', h' !! c = Some o' ->
               (exists o, h !! c = Some o /\ same_owner o o') \/
               (dataSource_ o' = Some this /\ serverAddr_ o' = PoolShard.server_ s)) /\
            (forall c, r = Some c ->
               (c ∈ PoolShard.idle_ s /\
                forall o, h !! c = Some o ->
                  exists o', h' !! c = Some o' /\ borrowed_ o' = true /\ same_owner o o') \/
               (exists o', h' !! c = Some o' /\ borrowed_ o' = true /\
                           dataSource_ o' = Some this))).
  { intros s0 r0 l0 Hidle -> Hi0 Hs0 [= <- <- <- <-].
    rewrite Hi0. split; [intros c Hc; inversion Hc|]. split; [exact Hs0|].
    split; [intros c o Ho; exists o; repeat split; exact Ho|].
    split; [intros c o' Ho; left; exists o'; repeat split; exact Ho|].
    intros c Hc. discriminate. }
  destruct (PoolShard.idle_ s) as [|c0 rest] eqn:Hidle.
  - destruct (PoolShard.closed_ s) eqn:Hclosed;
      [apply Hsame; try reflexivity; exact Hidle|].
    destruct (_ || _); [|apply Hsame; try reflexivity; exact Hidle].
    destruct open_ok; [|apply Hsame; try reflexivity; exact Hidle].
    intros [= <- <- <- <-]. cbn [PoolShard.idle_ PoolShard.server_ PoolShard.with_fails
      PoolShard.with_stats PoolShard.with_active]. rewrite Hidle.
    split; [intros c Hc; inversion Hc|]. split; [reflexivity|].
    pose proof (fresh_not_in_heap h) as Hfresh.
    split; [|split].
    + intros c o Ho. exists o. split; [|repeat split].
      rewrite lookup_insert_ne; [exact Ho|]. intros <-. congruence.
    + intros c o' Ho'. destruct (decide (fresh (dom h) = c)) as [<-|Hne].
      * rewrite lookup_insert_eq in Ho'. injection Ho' as <-. right. split; reflexivity.
      * rewrite lookup_insert_ne in Ho' by exact Hne. left. exists o'. repeat split.
        exact Ho'.
    + intros c [= <-]. right. eexists. rewrite lookup_insert_eq.
      split; [reflexivity|]. split; reflexivity.
  - intros [= <- <- <- <-]. cbn [PoolShard.idle_ PoolShard.server_ PoolShard.with_idle
      PoolShard.with_stats].
    split; [intros c Hc; apply elem_of_cons; right; exact Hc|]. split; [reflexivity|].
    split; [|split].
    + intros c o Ho. destruct (setBorrowed_lookup c0 true h c o Ho) as (o' & Ho' & Hso & _).
      eauto.
    + intros c o' Ho'. left. apply (setBorrowed_lookup_inv c0 true h c o' Ho').
    + intros c [= <-]. left. split; [apply elem_of_cons; left; reflexivity|].
      intros o Ho. destruct (setBorrowed_lookup c0 true h c0 o Ho) as (o' & Ho' & Hso & Hb).
      exists o'. split; [exact Ho'|]. split; [apply Hb; reflexivity|exact Hso].
Qed.

Lemma elem_of_removelast {A} (x : A) (l : list A) : x ∈ removelast l -> x ∈ l.
Proof.
  rewrite removelast_firstn_len. intros Hx.
  eapply (subseteq_take (Init.Nat.pred (length l)) l). exact Hx.
Qed.

(** What a [put] of a shard does to the heap and to the idle list. *)
Lemma shard_put_heap pc broken s h s' h' evs victim :
  PoolShard.put pc broken s h = Some (s', h', evs, victim) ->
  (forall c, c ∈ PoolShard.idle_ s' -> c = pc \/ c ∈ PoolShard.idle_ s) /\
  PoolShard.server_ s' = PoolShard.server_ s /\
  (forall c o, h !! c = Some o -> exists o', h' !! c = Some o' /\ same_owner o o') /\
  (forall c o', h' !! c = Some o' -> exists o, h !! c = Some o /\ same_owner o o').
Proof.
  destruct (isBorrowed pc h) as [[|]|] eqn:Hb.
  - rewrite (put_cases pc broken s h Hb). cbv zeta.
    assert (Hheap :
      (forall c o, h !! c = Some o ->
         exists o', setBorrowed pc false h !! c = Some o' /\ same_owner o o') /\
      (forall c o', setBorrowed pc false h !! c = Some o' ->
         exists o, h !! c = Some o /\ same_owner o o')).
    { split.
      - intros c o Ho. destruct (setBorrowed_lookup pc false h c o Ho) as (o' & ? & ? & _).
        eauto.
      - intros c o' Ho'. apply (setBorrowed_lookup_inv pc false h c o' Ho'). }
    destruct (negb (PoolShard.closed_ s) && negb broken);
      [destruct (_ >? _)|]; intros [= <- <- <- <-];
      (split; [|split; [destruct broken; reflexivity|exact Hheap]]).
    + intros c Hc.
      assert (Hin : c ∈ pc :: PoolShard.idle_ s).
      { apply elem_of_removelast. destruct broken; exact Hc. }
      apply elem_of_cons in Hin. exact Hin.
    + intros c Hc.
      assert (Hin : c ∈ pc :: PoolShard.idle_ s) by (destruct broken; exact Hc).
      apply elem_of_cons in Hin. exact Hin.
    + intros c Hc. right. destruct broken; exact Hc.
  - unfold PoolShard.put. rewrite Hb. cbn [negb mbind option_bind].
    intros [= <- <- <- <-].
    split; [intros c Hc; right; exact Hc|]. split; [reflexivity|].
    split; intros c o Ho; exists o; repeat split; exact Ho.
  - unfold PoolShard.put. rewrite Hb. discriminate.
Qed.

(** Storing a shard back keeps ownership when the heap kept its owners and
    what is newly parked belongs to the shard. *)
Lemma owned_store i s s' p h h' :
  owned p h -> poolShards_ p !! i = Some s ->
  PoolShard.server_ s' = PoolShard.server_ s ->
  (forall c o, h !! c = Some o -> exists o', h' !! c = Some o' /\ same_owner o o') ->
  (forall c o', h' !! c = Some o' ->
     (exists o, h !! c = Some o /\ same_owner o o') \/
     (dataSource_ o' = Some i /\ serverAddr_ o' = PoolShard.server_ s)) ->
  (forall c, c ∈ PoolShard.idle_ s' ->
     c ∈ PoolShard.idle_ s \/ exists o', h' !! c = Some o' /\ dataSource_ o' = Some i) ->
  owned (store_shard i s' p) h'.
Proof.
  intros [Hheap Hidle] Hi Hsrv Hkeep Hnew Hpark.
  assert (Hlt : (i < length (poolShards_ p))%nat) by (eapply lookup_lt_Some; eauto).
  assert (Hat : forall j sj,
            poolShards_ p !! j = Some sj ->
            exists sj', poolShards_ (store_shard i s' p) !! j = Some sj' /\
                        PoolShard.server_ sj' = PoolShard.server_ sj).
  { intros j sj Hj. unfold store_shard. cbn [poolShards_ with_shards].
    destruct (decide (i = j)) as [<-|Hne].
    - rewrite list_lookup_insert_eq by exact Hlt. exists s'. split; [reflexivity|].
      congruence.
    - rewrite list_lookup_insert_ne by exact Hne. eauto. }
  split.
  - intros c o' j Ho' Hds.
    destruct (Hnew c o' Ho') as [(o & Ho & Hds' & Haddr)|[Hds' Haddr]].
    + destruct (Hheap c o j Ho) as (sj & Hj & Hsj); [congruence|].
      destruct (Hat j sj Hj) as (sj' & Hj' & Hsrv'). exists sj'. split; [exact Hj'|].
      congruence.
    + assert (j = i) as -> by congruence.
      destruct (Hat i s Hi) as (sj' & Hj' & Hsrv'). exists sj'. split; [exact Hj'|].
      congruence.
  - intros j sj c Hj Hc. unfold store_shard in Hj. cbn [poolShards_ with_shards] in Hj.
    destruct (decide (i = j)) as [<-|Hne].
    + rewrite list_lookup_insert_eq in Hj by exact Hlt. injection Hj as <-.
      destruct (Hpark c Hc) as [Hold|Hnewc]; [|exact Hnewc].
      destruct (Hidle i s c Hi Hold) as (o & Ho & Hds).
      destruct (Hkeep c o Ho) as (o' & Ho' & Hds' & _). exists o'. split; [exact Ho'|].
      congruence.
    + rewrite list_lookup_insert_ne in Hj by exact Hne.
      destruct (Hidle j sj c Hj Hc) as (o & Ho & Hds).
      destruct (Hkeep c o Ho) as (o' & Ho' & Hds' & _). exists o'. split; [exact Ho'|].
      congruence.
Qed.

Lemma get_loop_owned FILE opens waits local n :
  forall tries p h log r p' h' log',
    owned p h ->
    get_loop FILE n tries local opens waits p h log = Some (r, p', h', log') ->
    owned p' h' /\
    forall c, r = Return c ->
      exists o i shard,
        h' !! c = Some o /\ borrowed_ o = true /\ dataSource_ o = Some i /\
        poolShards_ p' !! i = Some shard /\ serverAddr_ o = PoolShard.server_ shard.
Proof.
  induction n as [|n IH]; intros tries p h log r p' h' log' Hown Hloop.
  - injection Hloop as <- <- <- <-. split; [exact Hown|]. intros c Hc. discriminate.
  - cbn [get_loop] in Hloop.
    destruct (poolShards_ p !! subscript (shard_index p local tries)) as [shard|] eqn:Hs;
      [|discriminate].
    cbn [mbind option_bind] in Hloop.
    destruct (negb (PoolShard.isAvailable shard)); [eapply IH; [|exact Hloop]; exact Hown|].
    destruct (PoolShard.get _ _ _ shard h) as [[[pc shard'] h1] evs] eqn:Hget.
    destruct (shard_get_heap _ _ _ _ _ _ _ _ _ Hget) as (Hsub & Hsrv & Hkeep & Hnew & Hres).
    assert (Hown1 : owned (store_shard (subscript (shard_index p local tries)) shard' p) h1).
    { eapply owned_store; eauto. }
    destruct pc as [c|]; [|eapply IH; [|exact Hloop]; exact Hown1].
    injection Hloop as <- <- <- <-. split; [exact Hown1|].
    intros c' [= <-].
    assert (Hobj : exists o, h1 !! c = Some o /\ borrowed_ o = true /\
                             dataSource_ o = Some (subscript (shard_index p local tries))).
    { destruct (Hres c eq_refl) as [[Hin Hb]|(o' & Ho' & Hb & Hds)]; [|eauto].
      destruct (proj2 Hown _ _ _ Hs Hin) as (o & Ho & Hds).
      destruct (Hb o Ho) as (o' & Ho' & Hb' & Hds' & _). exists o'.
      split; [exact Ho'|]. split; [exact Hb'|]. congruence. }
    destruct Hobj as (o & Ho & Hb & Hds).
    destruct (proj1 Hown1 c o _ Ho Hds) as (sh & Hsh & Haddr).
    exists o, (subscript (shard_index p local tries)), sh. auto.
Qed.

Lemma put_owned pc broken p h p' h' evs :
  owned p h -> put pc broken p h = Some (p', h', evs) -> owned p' h'.
Proof.
  intros Hown. unfold put, getDataSource.
  destruct (h !! pc) as [o|] eqn:Ho; [|discriminate]. cbn [mbind option_bind].
  destruct (dataSource_ o) as [i|] eqn:Hds; [|discriminate]. cbn [mbind option_bind].
  destruct (poolShards_ p !! i) as [shard|] eqn:Hi; [|discriminate].
  cbn [mbind option_bind].
  destruct (PoolShard.put pc broken shard h) as [[[[shard' h1] evs1] v]|] eqn:Hput;
    [|discriminate].
  cbn [mbind option_bind]. intros [= <- <- <-].
  destruct (shard_put_heap _ _ _ _ _ _ _ _ Hput) as (Hidle & Hsrv & Hkeep & Hinv).
  eapply owned_store; eauto.
  intros c Hc. destruct (Hidle c Hc) as [->|Hold]; [|left; exact Hold].
  right. destruct (Hkeep pc o Ho) as (o' & Ho' & Hds' & _). exists o'.
  split; [exact Ho'|]. congruence.
Qed.

Lemma owned_new servers cfg index0 : owned (new servers cfg index0) ∅.
Proof.
  split.
  - intros c o i Hc. rewrite lookup_empty in Hc. discriminate.
  - intros i shard c Hi Hc. cbn [new poolShards_] in Hi.
    rewrite list_lookup_fmap in Hi. destruct (servers !! i); [|discriminate].
    injection Hi as <-. inversion Hc.
Qed.

(** X10. Ownership is an invariant of the pool: it holds for a pool just
    constructed with no connection made, and [get] and [put] keep it,
    whatever they return. So the data source of every connection names a
    shard of the pool that serves the connection's address, and every parked
    connection is parked in the shard its data source names. *)
Theorem ownership_invariant FILE opens waits :
  (forall servers cfg index0, owned (new servers cfg index0) ∅) /\
  (forall p h r p' h' log,
     owned p h -> get FILE opens waits p h = Some (r, p', h', log) -> owned p' h') /\
  (forall pc broken p h p' h' evs,
     owned p h -> put pc broken p h = Some (p', h', evs) -> owned p' h').
Proof.
  split; [apply owned_new|]. split; [|apply put_owned].
  intros p h r p' h' log Hown Hget. unfold get in Hget.
  eapply get_loop_owned; [|exact Hget]. exact Hown.
Qed.

(** X11. The connection [get] returns is marked borrowed, its data source is
    the position of a shard of the pool, and that shard serves the
    connection's address. [put] of it, broken or not, is therefore defined:
    none of its assertions fails, and the shard it reaches is that one. *)
Theorem get_then_put FILE opens waits p h c p' h' log broken :
  owned p h ->
  get FILE opens waits p h = Some (Return c, p', h', log) ->
  exists o i shard,
    h' !! c = Some o /\ borrowed_ o = true /\ dataSource_ o = Some i /\
    poolShards_ p' !! i = Some shard /\ serverAddr_ o = PoolShard.server_ shard /\
    exists shard' evs victim,
      PoolShard.put c broken shard h' = Some (shard', setBorrowed c false h', evs, victim) /\
      put c broken p' h' = Some (store_shard i shard' p', setBorrowed c false h', evs).
Proof.
  intros Hown Hget. unfold get in Hget.
  assert (Hown0 : owned (fetch_add_index p) h) by exact Hown.
  destruct (get_loop_owned _ _ _ _ _ _ _ _ _ _ _ _ _ Hown0 Hget) as [_ Hres].
  destruct (Hres c eq_refl) as (o & i & shard & Ho & Hb & Hds & Hi & Haddr).
  exists o, i, shard. repeat (split; [assumption|]).
  assert (Hbor : isBorrowed c h' = Some true).
  { unfold isBorrowed. rewrite Ho. cbn. rewrite Hb. reflexivity. }
  destruct (put_borrowed c broken shard h' Hbor) as (shard' & evs & victim & Hput & _).
  exists shard', evs, victim. split; [exact Hput|].
  unfold put, getDataSource. rewrite Ho. cbn [mbind option_bind]. rewrite Hds.
  cbn [mbind option_bind]. rewrite Hi. cbn [mbind option_bind]. rewrite Hput. reflexivity.
Qed.

End Ownership.

Section HealthCheck.

Import DPool.

Implicit Types (p : t) (i : shard_ref).

Lemma flags_only_refl s : PoolShard.flags_only s s.
Proof. destruct s. reflexivity. Qed.

Lemma flags_only_trans s1 s2 s3 :
  PoolShard.flags_only s1 s2 -> PoolShard.flags_only s2 s3 -> PoolShard.flags_only s1 s3.
Proof. unfold PoolShard.flags_only. intros -> ->. reflexivity. Qed.

Lemma prober_frame_refl p : prober_frame p p.
Proof.
  repeat split. intros j s Hj. exists s. split; [exact Hj|apply flags_only_refl].
Qed.

Lemma prober_frame_trans p1 p2 p3 :
  prober_frame p1 p2 -> prober_frame p2 p3 -> prober_frame p1 p3.
Proof.
  intros (Hs & Hi & Hc & Hg & Hl & Hsh) (Hs' & Hi' & Hc' & Hg' & Hl' & Hsh').
  repeat split; try congruence.
  intros j s Hj. destruct (Hsh j s Hj) as (s2 & Hj2 & Hf).
  destruct (Hsh' j s2 Hj2) as (s3 & Hj3 & Hf'). exists s3. split; [exact Hj3|].
  eapply flags_only_trans; eassumption.
Qed.

Lemma store_flag_frame i b s p :
  poolShards_ p !! i = Some s ->
  forall n, prober_frame p (with_numAvailable n
                              (store_shard i (PoolShard.with_available b s) p)).
Proof.
  intros Hi n. repeat split.
  - cbn. apply length_insert.
  - intros j s0 Hj. cbn. destruct (decide (i = j)) as [<-|Hne].
    + rewrite list_lookup_insert_eq by (eapply lookup_lt_Some; eauto).
      eexists. split; [reflexivity|]. rewrite Hi in Hj. injection Hj as <-. reflexivity.
    + rewrite list_lookup_insert_ne by exact Hne. exists s0.
      split; [exact Hj|apply flags_only_refl].
Qed.

Lemma markAvailable_frame i b p p' :
  markAvailable i b p = Some p' -> prober_frame p p'.
Proof.
  unfold markAvailable. destruct (poolShards_ p !! i) as [s|] eqn:Hi; [|discriminate].
  cbn [mbind option_bind]. unfold PoolShard.markAvailable.
  destruct b.
  - destruct (Bool.eqb _ _); intros [= <-];
      [apply store_flag_frame, Hi|apply prober_frame_refl].
  - destruct (quorum_guard p); [|intros [= <-]; apply prober_frame_refl].
    destruct (Bool.eqb _ _); intros [= <-];
      [apply store_flag_frame, Hi|apply prober_frame_refl].
Qed.

Lemma prober_run_frame p p' : rtc prober_step p p' -> prober_frame p p'.
Proof.
  induction 1 as [p|p1 p2 p3 [i b q q' Hcall] _ IH]; [apply prober_frame_refl|].
  eapply prober_frame_trans; [eapply markAvailable_frame, Hcall|exact IH].
Qed.

(** X12. A scan of the health checker writes availability flags and
    [numAvailable_] and nothing else: servers, cursor and [closed_] are as
    before, and each shard keeps its idle list, [active_], [fails_],
    [closed_], limits and counters. In particular a scan never clears a
    failure count: a shard that was suspectable still is. *)
Theorem healthCheck_scan_frame probe p :
  prober_frame p (healthCheck_scan probe p) /\
  forall j s s',
    poolShards_ p !! j = Some s -> poolShards_ (healthCheck_scan probe p) !! j = Some s' ->
    PoolShard.idle_ s' = PoolShard.idle_ s /\ PoolShard.active_ s' = PoolShard.active_ s /\
    PoolShard.fails_ s' = PoolShard.fails_ s /\ PoolShard.stats_ s' = PoolShard.stats_ s /\
    PoolShard.closed_ s' = PoolShard.closed_ s /\
    PoolShard.isSuspectable s' = PoolShard.isSuspectable s.
Proof.
  pose proof (prober_run_frame _ _ (healthCheck_scan_steps probe p)) as Hframe.
  split; [exact Hframe|]. intros j s s' Hj Hj'.
  destruct Hframe as (_ & _ & _ & _ & _ & Hsh).
  destruct (Hsh j s Hj) as (s'' & Hj'' & Hf). rewrite Hj' in Hj''. injection Hj'' as <-.
  unfold PoolShard.flags_only in Hf. rewrite Hf. repeat split.
Qed.

(** X13. A pool in which no shard is suspectable and every shard is available is
    left as it is by a scan, whatever the probes would answer. *)
Theorem healthCheck_scan_healthy probe p :
  (forall s, s ∈ poolShards_ p -> healthy s = true) ->
  healthCheck_scan probe p = p.
Proof.
  intros Hall. unfold healthCheck_scan.
  generalize (seq 0 (length (poolShards_ p))). intros l.
  induction l as [|i l IH]; [reflexivity|].
  cbn [foldl]. replace (healthCheck_visit probe p i) with p; [exact IH|].
  unfold healthCheck_visit. destruct (poolShards_ p !! i) as [s|] eqn:Hi; [|reflexivity].
  pose proof (Hall s (list_elem_of_lookup_2 _ _ _ Hi)) as Hs. unfold healthy in Hs.
  rewrite Hs. reflexivity.
Qed.

Lemma available_among_all l :
  (forall s, s ∈ l -> PoolShard.available_ s = true) ->
  available_among l = Z.of_nat (length l).
Proof.
  induction l as [|s l IH]; intros Hall; [reflexivity|].
  simpl available_among. rewrite length_cons, (Hall s) by (apply elem_of_cons; auto).
  rewrite IH; [lia|]. intros s0 Hs0. apply Hall, elem_of_cons. auto.
Qed.

(** One visit when the probe of the shard succeeds. *)
Lemma healthCheck_visit_ok probe p i :
  prober_inv p -> checkServer (probe i) = true ->
  (i < length (poolShards_ p))%nat ->
  let p' := healthCheck_visit probe p i in
  prober_inv p' /\ length (poolShards_ p') = length (poolShards_ p) /\
  forall j s, poolShards_ p !! j = Some s ->
    exists s', poolShards_ p' !! j = Some s' /\
      (PoolShard.available_ s = true -> PoolShard.available_ s' = true) /\
      (j = i -> PoolShard.available_ s' = true).
Proof.
  intros Hinv Hok Hlt. cbv zeta. unfold healthCheck_visit.
  destruct (lookup_lt_is_Some_2 _ _ Hlt) as [s Hi]. rewrite Hi.
  assert (Hsame : forall j s0, poolShards_ p !! j = Some s0 ->
            PoolShard.available_ s = true ->
            exists s', poolShards_ p !! j = Some s' /\
              (PoolShard.available_ s0 = true -> PoolShard.available_ s' = true) /\
              (j = i -> PoolShard.available_ s' = true)).
  { intros j s0 Hj Hav. exists s0. split; [exact Hj|]. split; [auto|].
    intros ->. rewrite Hi in Hj. injection Hj as <-. exact Hav. }
  destruct (negb (PoolShard.isSuspectable s) && PoolShard.isAvailable s) eqn:Hh.
  - split; [exact Hinv|]. split; [reflexivity|]. intros j s0 Hj.
    apply Hsame; [exact Hj|]. apply andb_true_iff in Hh. apply Hh.
  - rewrite Hok, (markAvailable_up p i s Hinv Hi). cbn [default].
    destruct (PoolShard.available_ s) eqn:Hav.
    + split; [exact Hinv|]. split; [reflexivity|]. intros j s0 Hj. apply Hsame; auto.
    + assert (Hstep : prober_step p
                (with_numAvailable (numAvailable_ p + 1)
                   (store_shard i (PoolShard.with_available true s) p))).
      { apply (prober_call i true). rewrite (markAvailable_up p i s Hinv Hi), Hav.
        reflexivity. }
      split; [apply (prober_step_inv _ _ Hstep Hinv)|].
      split; [cbn; apply length_insert|].
      intros j s0 Hj. cbn. destruct (decide (i = j)) as [<-|Hne].
      * rewrite list_lookup_insert_eq by exact Hlt. eexists. split; [reflexivity|].
        split; reflexivity.
      * rewrite list_lookup_insert_ne by exact Hne. exists s0. split; [exact Hj|].
        split; [auto|]. intros ->. congruence.
Qed.

Lemma healthCheck_fold_ok probe l :
  (forall i, checkServer (probe i) = true) ->
  forall p,
    prober_inv p -> (forall i, i ∈ l -> (i < length (poolShards_ p))%nat) ->
    let p' := foldl (healthCheck_visit probe) p l in
    prober_inv p' /\ length (poolShards_ p') = length (poolShards_ p) /\
    forall j s, poolShards_ p !! j = Some s ->
      exists s', poolShards_ p' !! j = Some s' /\
        (PoolShard.available_ s = true -> PoolShard.available_ s' = true) /\
        (j ∈ l -> PoolShard.available_ s' = true).
Proof.
  intros Hok. induction l as [|i l IH]; intros p Hinv Hin; cbv zeta.
  - split; [exact Hinv|]. split; [reflexivity|]. intros j s Hj. exists s.
    split; [exact Hj|]. split; [auto|]. intros Hnil. inversion Hnil.
  - cbn [foldl].
    destruct (healthCheck_visit_ok probe p i Hinv (Hok i)) as (Hinv1 & Hlen1 & Hsh1);
      [apply Hin, elem_of_cons; auto|].
    destruct (IH (healthCheck_visit probe p i) Hinv1) as (Hinv2 & Hlen2 & Hsh2).
    { intros k Hk. rewrite Hlen1. apply Hin, elem_of_cons. auto. }
    split; [exact Hinv2|]. split; [congruence|].
    intros j s Hj. destruct (Hsh1 j s Hj) as (s1 & Hj1 & Hkeep1 & Hat1).
    destruct (Hsh2 j s1 Hj1) as (s2 & Hj2 & Hkeep2 & Hat2).
    exists s2. split; [exact Hj2|]. split; [auto|].
    intros Hjl. apply elem_of_cons in Hjl as [->|Hjl]; auto.
Qed.

(** X14. Recovery. When every probe succeeds, one scan leaves every shard
    available and [numAvailable_] equal to the number of servers. *)
Theorem healthCheck_scan_recovers probe p :
  prober_inv p -> (forall i, checkServer (probe i) = true) ->
  let p' := healthCheck_scan probe p in
  (forall s', s' ∈ poolShards_ p' -> PoolShard.available_ s' = true) /\
  numAvailable_ p' = Z.of_nat (length (servers_ p)) /\
  prober_inv p'.
Proof.
  intros Hinv Hok. cbv zeta. unfold healthCheck_scan.
  destruct (healthCheck_fold_ok probe (seq 0 (length (poolShards_ p))) Hok p Hinv)
    as (Hinv' & Hlen & Hsh).
  { intros i Hi. apply elem_of_seq in Hi. lia. }
  set (p' := foldl _ p _) in *.
  assert (Hall : forall s', s' ∈ poolShards_ p' -> PoolShard.available_ s' = true).
  { intros s' Hs'. apply list_elem_of_lookup in Hs' as [j Hj'].
    assert (Hjlt : (j < length (poolShards_ p))%nat)
      by (rewrite <- Hlen; eapply lookup_lt_Some; eauto).
    destruct (lookup_lt_is_Some_2 _ _ Hjlt) as [s Hj].
    destruct (Hsh j s Hj) as (s'' & Hj'' & _ & Hat). rewrite Hj' in Hj''.
    injection Hj'' as <-. apply Hat. apply elem_of_seq. lia. }
  split; [exact Hall|]. split; [|exact Hinv'].
  destruct Hinv' as (_ & Hnum & _ & _). destruct Hinv as (Hl & _).
  rewrite Hnum. unfold count_available. rewrite (available_among_all _ Hall), Hlen, Hl.
  reflexivity.
Qed.

(** A call of the health checker does not take [numAvailable_] below a
    bound that is at most two thirds of the number of servers, rounded
    down. *)
Lemma prober_step_floor p p' B :
  prober_step p p' -> prober_inv p ->
  B <= Z.of_nat (length (servers_ p)) * 2 / 3 ->
  B <= numAvailable_ p -> B <= numAvailable_ p'.
Proof.
  intros [i b p0 p1 Hcall] Hinv HB Hle.
  destruct (poolShards_ p0 !! i) as [shard|] eqn:Hi;
    [|unfold markAvailable in Hcall; rewrite Hi in Hcall; discriminate].
  destruct b.
  - rewrite (markAvailable_up _ _ _ Hinv Hi) in Hcall. injection Hcall as <-.
    destruct (PoolShard.available_ shard); simpl; lia.
  - rewrite (markAvailable_down _ _ _ Hinv Hi) in Hcall. injection Hcall as <-.
    destruct (Z.gtb_spec (numAvailable_ p0 * 3) (Z.of_nat (length (servers_ p0)) * 2))
      as [Hgt|_]; simpl; [|exact Hle].
    destruct (PoolShard.available_ shard); simpl; [|exact Hle].
    pose proof (Z.div_mod (Z.of_nat (length (servers_ p0)) * 2) 3 ltac:(lia)) as Hdiv.
    pose proof (Z.mod_pos_bound (Z.of_nat (length (servers_ p0)) * 2) 3 ltac:(lia)) as Hmod.
    lia.
Qed.

Lemma prober_run_floor p p' B :
  rtc prober_step p p' -> prober_inv p ->
  B <= Z.of_nat (length (servers_ p)) * 2 / 3 ->
  B <= numAvailable_ p ->
  prober_inv p' /\ servers_ p' = servers_ p /\ B <= numAvailable_ p'.
Proof.
  intros Hrun. induction Hrun as [p|p0 p1 p2 Hstep Hrun IH]; intros Hinv HB Hle; [auto|].
  destruct (prober_step_inv _ _ Hstep Hinv) as (Hinv1 & Hsrv & _).
  pose proof (prober_step_floor _ _ B Hstep Hinv HB Hle) as Hle1.
  rewrite <- Hsrv in HB. destruct (IH Hinv1 HB Hle1) as (Hinv2 & Hsrv2 & Hle2).
  split; [assumption|]. split; [congruence|assumption].
Qed.

Lemma healthCheck_scans_steps (probes : list (shard_ref -> nat -> bool)) :
  forall p, rtc prober_step p (foldl (fun q probe => healthCheck_scan probe q) p probes).
Proof.
  induction probes as [|probe l IH]; intros p.
  - apply rtc_refl.
  - cbn [foldl]. etrans; [apply healthCheck_scan_steps|apply IH].
Qed.

(** X15. The guard across scans. On a pool whose [numAvailable_] counts its
    available shards (whatever their failure counts and flags), after any
    number of scans with any probe answers: [numAvailable_] still counts the
    available shards and lies between 0 and [N]; it is not below the smaller
    of its value before the scans and two thirds of [N] rounded down; so a
    pool at or below two thirds of [N] comes out of the scans with at least
    the shards it had. *)
Theorem healthCheck_scans_keep_quorum p (probes : list (shard_ref -> nat -> bool)) :
  prober_inv p ->
  let N := Z.of_nat (length (servers_ p)) in
  let p' := foldl (fun q probe => healthCheck_scan probe q) p probes in
  servers_ p' = servers_ p /\
  numAvailable_ p' = count_available p' /\
  0 <= numAvailable_ p' <= N /\
  Z.min (numAvailable_ p) (N * 2 / 3) <= numAvailable_ p' /\
  (numAvailable_ p * 3 <= N * 2 -> numAvailable_ p <= numAvailable_ p').
Proof.
  intros Hinv N p'.
  destruct (prober_run_floor p p' (Z.min (numAvailable_ p) (N * 2 / 3))
              (healthCheck_scans_steps probes p) Hinv) as (Hinv' & Hsrv & Hmin).
  { fold N. lia. }
  { lia. }
  pose proof (prober_inv_range _ Hinv') as Hr. rewrite Hsrv in Hr. fold N in Hr.
  split; [exact Hsrv|]. split; [apply Hinv'|]. split; [exact Hr|].
  split; [exact Hmin|].
  intros Hlow.
  pose proof (Z.div_mod (N * 2) 3 ltac:(lia)) as Hdiv.
  pose proof (Z.mod_pos_bound (N * 2) 3 ltac:(lia)) as Hmod.
  lia.
Qed.

End HealthCheck.

Section PoolCalls.

Import DPool.

Variable FILE : string.
Variable opens : Z -> bool.
Variable waits : Z -> list cv_status.

Implicit Types (p : t) (h : heap) (i : shard_ref).

(** *** [shutdown] *)

Lemma get_loop_with_closed local b n :
  forall tries p h log,
    get_loop FILE n tries local opens waits (with_closed b p) h log =
    (fun '(r, p', h', lg) => (r, with_closed b p', h', lg))
      <$> get_loop FILE n tries local opens waits p h log.
Proof.
  induction n as [|n IH]; intros tries p h log; [reflexivity|].
  cbn [get_loop].
  change (shard_index (with_closed b p) local tries) with (shard_index p local tries).
  change (poolShards_ (with_closed b p)) with (poolShards_ p).
  destruct (poolShards_ p !! subscript (shard_index p local tries)) as [shard|];
    [|reflexivity].
  cbn [mbind option_bind].
  destruct (negb (PoolShard.isAvailable shard)); [apply (IH _ (fetch_add_index p))|].
  destruct (PoolShard.get _ _ _ shard h) as [[[pc shard'] h1] evs].
  destruct pc as [c|]; [reflexivity|].
  apply (IH _ (fetch_add_index (store_shard _ shard' p))).
Qed.

Lemma healthCheck_visit_with_closed probe b p i :
  healthCheck_visit probe (with_closed b p) i = with_closed b (healthCheck_visit probe p i).
Proof.
  unfold healthCheck_visit.
  change (poolShards_ (with_closed b p)) with (poolShards_ p).
  destruct (poolShards_ p !! i) as [shard|] eqn:Hi; [|reflexivity].
  destruct (negb (PoolShard.isSuspectable shard) && PoolShard.isAvailable shard);
    [reflexivity|].
  unfold markAvailable.
  change (poolShards_ (with_closed b p)) with (poolShards_ p).
  change (quorum_guard (with_closed b p)) with (quorum_guard p).
  rewrite Hi. cbn [mbind option_bind].
  destruct (checkServer (probe i)).
  - destruct (PoolShard.markAvailable true shard) as [[|] shard']; reflexivity.
  - destruct (quorum_guard p); [|reflexivity].
    destruct (PoolShard.markAvailable false shard) as [[|] shard']; reflexivity.
Qed.

Lemma healthCheck_visits_with_closed probe b (l : list shard_ref) :
  forall p, foldl (healthCheck_visit probe) (with_closed b p) l
            = with_closed b (foldl (healthCheck_visit probe) p l).
Proof.
  induction l as [|i l IH]; intros p; [reflexivity|].
  cbn [foldl]. rewrite healthCheck_visit_with_closed. apply IH.
Qed.

Lemma healthCheck_visits_steps probe (l : list shard_ref) :
  forall p, rtc prober_step p (foldl (healthCheck_visit probe) p l).
Proof.
  induction l as [|i l IH]; intros p; [apply rtc_refl|].
  cbn [foldl]. etrans; [apply healthCheck_visit_steps|apply IH].
Qed.

(** A visit writes the shard it visits and no other. *)
Lemma healthCheck_visit_other probe p i j :
  i <> j -> poolShards_ (healthCheck_visit probe p i) !! j = poolShards_ p !! j.
Proof.
  intros Hij. unfold healthCheck_visit.
  destruct (poolShards_ p !! i) as [shard|] eqn:Hi; [|reflexivity].
  destruct (negb (PoolShard.isSuspectable shard) && PoolShard.isAvailable shard);
    [reflexivity|].
  unfold markAvailable. rewrite Hi. cbn [mbind option_bind].
  destruct (checkServer (probe i)).
  - destruct (PoolShard.markAvailable true shard) as [[|] shard']; [|reflexivity].
    cbn. apply list_lookup_insert_ne. exact Hij.
  - destruct (quorum_guard p); [|reflexivity].
    destruct (PoolShard.markAvailable false shard) as [[|] shard']; [|reflexivity].
    cbn. apply list_lookup_insert_ne. exact Hij.
Qed.

Lemma healthCheck_visits_other probe j (l : list shard_ref) :
  j ∉ l ->
  forall p, poolShards_ (foldl (healthCheck_visit probe) p l) !! j = poolShards_ p !! j.
Proof.
  induction l as [|i l IH]; intros Hj p; [reflexivity|].
  apply not_elem_of_cons in Hj as [Hji Hjl].
  cbn [foldl]. rewrite (IH Hjl). apply healthCheck_visit_other. congruence.
Qed.

(** X16. [shutdown] on an open pool sets the flag of the pool and returns
    when the health check thread has finished the scan it was in, so the
    pool it leaves is the pool after the visits from position [from] on,
    with the flag set: availability flags and [numAvailable_] may have
    changed, the shards before [from] have not, and no shard is closed and
    no parked connection is let go. A thread that had just ended its scan
    leaves the flag as the only change. [get] does not read the flag: on the
    pool shut down it returns what it returns on the pool after those
    visits. Any further [shutdown] changes nothing. *)
Theorem shutdown_joins_scan probe from p h :
  closed_ p = false ->
  let p' := shutdown probe from p in
  closed_ p' = true /\
  p' = with_closed true (healthCheck_rest probe from p) /\
  prober_frame (with_closed true p) p' /\
  (forall j s, poolShards_ p !! j = Some s ->
     exists s', poolShards_ p' !! j = Some s' /\
       PoolShard.closed_ s' = PoolShard.closed_ s /\
       PoolShard.idle_ s' = PoolShard.idle_ s /\
       PoolShard.active_ s' = PoolShard.active_ s /\
       ((j < from)%nat -> s' = s)) /\
  ((length (poolShards_ p) <= from)%nat -> p' = with_closed true p) /\
  (forall probe' from', shutdown probe' from' p' = p') /\
  get FILE opens waits p' h =
  (fun '(r, q, h', lg) => (r, with_closed true q, h', lg))
    <$> get FILE opens waits (healthCheck_rest probe from p) h.
Proof.
  intros Hc p'.
  assert (Hp' : p' = with_closed true (healthCheck_rest probe from p)).
  { unfold p', shutdown. rewrite Hc. unfold healthCheck_rest.
    change (poolShards_ (with_closed true p)) with (poolShards_ p).
    apply healthCheck_visits_with_closed. }
  assert (Hframe : prober_frame (with_closed true p) p').
  { unfold p', shutdown. rewrite Hc. apply prober_run_frame.
    unfold healthCheck_rest. apply healthCheck_visits_steps. }
  split; [rewrite Hp'; reflexivity|]. split; [exact Hp'|]. split; [exact Hframe|].
  split; [|split; [|split]].
  - intros j s Hj. destruct Hframe as (_ & _ & _ & _ & _ & Hsh).
    destruct (Hsh j s Hj) as (s' & Hj' & Hf). exists s'. split; [exact Hj'|].
    unfold PoolShard.flags_only in Hf.
    split; [rewrite Hf; reflexivity|]. split; [rewrite Hf; reflexivity|].
    split; [rewrite Hf; reflexivity|].
    intros Hlt. rewrite Hp' in Hj'.
    change (poolShards_ (with_closed true (healthCheck_rest probe from p)))
      with (poolShards_ (healthCheck_rest probe from p)) in Hj'.
    unfold healthCheck_rest in Hj'. rewrite healthCheck_visits_other in Hj'.
    + congruence.
    + rewrite elem_of_seq. lia.
  - intros Hfrom. rewrite Hp'. unfold healthCheck_rest.
    replace (length (poolShards_ p) - from)%nat with 0%nat by lia. reflexivity.
  - intros probe' from'. unfold shutdown at 1. rewrite Hp'. reflexivity.
  - rewrite Hp'. unfold get.
    apply (get_loop_with_closed (index_ (healthCheck_rest probe from p)) true 5 0
             (fetch_add_index (healthCheck_rest probe from p))).
Qed.

(** *** [getPoolStats] *)

Lemma getPoolStats_loop_map shards :
  forall acc,
    getPoolStats_loop shards acc =
    (acc ++ ((fun s => fst (PoolShard.getShardStats
                              (PoolStats_new (PoolShard.getServerAddr s)) s)) <$> shards),
     (fun s => PoolShard.with_stats (PoolStats_reset (PoolShard.stats_ s)) s) <$> shards).
Proof.
  induction shards as [|s l IH]; intros acc.
  - cbn. rewrite app_nil_r. reflexivity.
  - cbn [getPoolStats_loop]. unfold PoolShard.getShardStats at 1. rewrite IH.
    rewrite <- app_assoc. reflexivity.
Qed.

(** X17. [getPoolStats] forgets what the list held and returns one entry for
    each shard, in the order of the shards: the shard's address, flag,
    [active_] and counters. It zeroes the counters of every shard and touches
    nothing else, so a second readout right after returns the same addresses,
    flags and [active_] with every counter at 0. *)
Theorem getPoolStats_reads_and_resets statsList statsList2 p :
  let out := fst (getPoolStats statsList p) in
  let p1 := snd (getPoolStats statsList p) in
  let out2 := fst (getPoolStats statsList2 p1) in
  length out = length (poolShards_ p) /\
  length (poolShards_ p1) = length (poolShards_ p) /\
  (forall i s, poolShards_ p !! i = Some s ->
     out !! i =
       Some (mkPoolStats (PoolShard.server_ s) (PoolShard.available_ s)
               (PoolShard.active_ s) (numGet (PoolShard.stats_ s))
               (numPut (PoolShard.stats_ s)) (numBroken (PoolShard.stats_ s))
               (numDial (PoolShard.stats_ s)) (numDialFail (PoolShard.stats_ s))
               (numEvict (PoolShard.stats_ s)) (numClose (PoolShard.stats_ s))) /\
     poolShards_ p1 !! i =
       Some (PoolShard.with_stats (PoolStats_reset (PoolShard.stats_ s)) s) /\
     out2 !! i =
       Some (mkPoolStats (PoolShard.server_ s) (PoolShard.available_ s)
               (PoolShard.active_ s) 0 0 0 0 0 0 0)) /\
  servers_ p1 = servers_ p /\ index_ p1 = index_ p /\
  numAvailable_ p1 = numAvailable_ p /\ closed_ p1 = closed_ p.
Proof.
  cbv zeta. unfold getPoolStats. rewrite !getPoolStats_loop_map.
  cbn [fst snd poolShards_ with_shards app]. rewrite ?getPoolStats_loop_map.
  cbn [fst snd app]. rewrite !length_fmap.
  split; [reflexivity|]. split; [reflexivity|]. split; [|repeat split].
  intros i s Hi. rewrite !list_lookup_fmap, Hi. cbn. repeat split.
Qed.

(** *** What [get] leaves alone *)

Lemma same_config_trans s1 s2 s3 :
  PoolShard.same_config s1 s2 -> PoolShard.same_config s2 s3 -> PoolShard.same_config s1 s3.
Proof.
  unfold PoolShard.same_config.
  intros (?&?&?&?&?&?&?) (?&?&?&?&?&?&?). repeat split; congruence.
Qed.

Lemma same_config_refl s : PoolShard.same_config s s.
Proof. repeat split. Qed.

Lemma get_loop_frame local n :
  forall tries p h log r p' h' log',
    get_loop FILE n tries local opens waits p h log = Some (r, p', h', log') ->
    servers_ p' = servers_ p /\ numAvailable_ p' = numAvailable_ p /\
    closed_ p' = closed_ p /\ poolConfig_ p' = poolConfig_ p /\
    length (poolShards_ p') = length (poolShards_ p) /\
    (forall e, e ∈ log -> e ∈ log') /\
    forall i s, poolShards_ p !! i = Some s ->
      exists s', poolShards_ p' !! i = Some s' /\
        PoolShard.available_ s' = PoolShard.available_ s /\
        PoolShard.closed_ s' = PoolShard.closed_ s /\
        PoolShard.same_config s s' /\
        (PoolShard.available_ s = false -> s' = s) /\
        (EvShardGet i ∉ log' -> s' = s).
Proof.
  induction n as [|n IH]; intros tries p h log r p' h' log' Hloop.
  - injection Hloop as <- <- <- <-. repeat split; try auto.
    intros i s Hi. exists s. repeat split; auto.
  - cbn [get_loop] in Hloop.
    destruct (poolShards_ p !! subscript (shard_index p local tries)) as [shard|] eqn:Hs;
      [|discriminate].
    cbn [mbind option_bind] in Hloop.
    destruct (PoolShard.isAvailable shard) eqn:Hav; cbn [negb] in Hloop.
    + destruct (PoolShard.get _ _ _ shard h) as [[[pc shard'] h1] evs] eqn:Hget.
      destruct (get_fields _ _ _ _ _ _ _ _ _ Hget)
        as (_ & _ & _ & _ & _ & _ & _ & Hcl & Havs & Hcfg & _).
      set (idx := subscript (shard_index p local tries)) in *.
      assert (Hlt : (idx < length (poolShards_ p))%nat) by (eapply lookup_lt_Some; eauto).
      assert (Hstore : forall i s, poolShards_ p !! i = Some s ->
                exists s1, poolShards_ (store_shard idx shard' p) !! i = Some s1 /\
                  PoolShard.available_ s1 = PoolShard.available_ s /\
                  PoolShard.closed_ s1 = PoolShard.closed_ s /\
                  PoolShard.same_config s s1 /\
                  (i <> idx -> s1 = s) /\ (i = idx -> s = shard)).
      { intros i s Hi. cbn. destruct (decide (idx = i)) as [<-|Hne].
        - rewrite list_lookup_insert_eq by exact Hlt. exists shard'.
          rewrite Hs in Hi. injection Hi as <-. repeat split; try assumption; try apply Hcfg.
          congruence.
        - rewrite list_lookup_insert_ne by exact Hne. exists s.
          repeat split; try assumption; try reflexivity. congruence. }
      destruct pc as [c|].
      * injection Hloop as <- <- <- <-.
        split; [reflexivity|]. split; [reflexivity|]. split; [reflexivity|].
        split; [reflexivity|]. split; [cbn; apply length_insert|].
        split; [intros e He; apply elem_of_app; left; exact He|].
        intros i s Hi. destruct (Hstore i s Hi) as (s1 & Hi1 & Ha & Hc & Hf & Hne & Heq).
        exists s1. repeat split; try assumption; try apply Hf.
        -- intros Hoff. apply Hne. intros ->. rewrite (Heq eq_refl) in Hoff.
           unfold PoolShard.isAvailable in Hav. congruence.
        -- intros Hnot. apply Hne. intros ->. apply Hnot.
           apply elem_of_app. right. apply elem_of_cons. left. reflexivity.
      * destruct (IH _ _ _ _ _ _ _ _ Hloop) as (H1 & H2 & H3 & H4 & H5 & H6 & H7).
        split; [exact H1|]. split; [exact H2|]. split; [exact H3|]. split; [exact H4|].
        split; [rewrite H5; cbn; apply length_insert|].
        split; [intros e He; apply H6, elem_of_app; left; exact He|].
        intros i s Hi. destruct (Hstore i s Hi) as (s1 & Hi1 & Ha & Hc & Hf & Hne & Heq).
        destruct (H7 i s1 Hi1) as (s2 & Hi2 & Ha2 & Hc2 & Hf2 & Hoff2 & Hnot2).
        exists s2. split; [exact Hi2|]. split; [congruence|]. split; [congruence|].
        split; [eapply same_config_trans; eassumption|]. split.
        -- intros Hoff. rewrite Hoff2 by congruence. apply Hne. intros ->.
           rewrite (Heq eq_refl) in Hoff. unfold PoolShard.isAvailable in Hav. congruence.
        -- intros Hnot. rewrite (Hnot2 Hnot). apply Hne. intros ->. apply Hnot.
           apply H6. apply elem_of_app. right. apply elem_of_cons. left. reflexivity.
    + destruct (IH _ _ _ _ _ _ _ _ Hloop) as (H1 & H2 & H3 & H4 & H5 & H6 & H7).
      repeat split; assumption.
Qed.

(** X18. [get] never changes a server, [numAvailable_], the pool's [closed_], or
    the number of shards, and of a shard never the availability flag,
    [closed_] or a limit. A shard that is unavailable comes out exactly as it
    went in, and so does every shard whose [get] is not in the log. *)
Theorem get_leaves_unavailable_alone p h r p' h' log :
  get FILE opens waits p h = Some (r, p', h', log) ->
  servers_ p' = servers_ p /\ numAvailable_ p' = numAvailable_ p /\
  closed_ p' = closed_ p /\
  length (poolShards_ p') = length (poolShards_ p) /\
  forall i s, poolShards_ p !! i = Some s ->
    exists s', poolShards_ p' !! i = Some s' /\
      PoolShard.available_ s' = PoolShard.available_ s /\
      PoolShard.closed_ s' = PoolShard.closed_ s /\
      PoolShard.same_config s s' /\
      (PoolShard.available_ s = false -> s' = s) /\
      (EvShardGet i ∉ log -> s' = s).
Proof.
  intros Hget. unfold get in Hget.
  destruct (get_loop_frame _ _ _ _ _ _ _ _ _ _ Hget) as (H1 & H2 & H3 & _ & H5 & _ & H7).
  repeat split; assumption.
Qed.

(** *** The first try *)


(** *** The constructor *)

(** X20. A pool just constructed over a list of servers that is not empty and
    not longer than [INT_MAX] is well formed: one shard for each server, in
    order and built from the same configuration, every one available, open
    and empty; [numAvailable_] is the number of servers, and the pool is not
    closed. The cursor starts wherever it was ([index0]). *)
Theorem new_pool servers cfg index0 :
  servers <> [] -> Z.of_nat (length servers) <= INT_MAX ->
  let p := new servers cfg index0 in
  wf p /\ numAvailable_ p = Z.of_nat (length servers) /\
  numAvailable_ p = count_available p /\ closed_ p = false /\
  index_ p = u32 index0 /\
  (forall i a, servers !! i = Some a ->
     poolShards_ p !! i = Some (PoolShard.new a cfg)) /\
  (forall s, s ∈ poolShards_ p ->
     PoolShard.available_ s = true /\ PoolShard.closed_ s = false /\
     PoolShard.idle_ s = [] /\ PoolShard.active_ s = 0 /\ PoolShard.fails_ s = 0 /\
     PoolShard.kMaxIdle_ s = maxIdle cfg /\ PoolShard.kMaxActive_ s = maxActive cfg).
Proof.
  intros Hne Hmax. cbv zeta.
  assert (Hpos : 0 < Z.of_nat (length servers)) by (destruct servers; [congruence|simpl; lia]).
  split; [|split; [|split; [|split; [|split; [|split]]]]].
  - split; [cbn; apply length_fmap|]. cbn [new servers_]. lia.
  - apply numAvailable_new, Hmax.
  - rewrite numAvailable_new by exact Hmax. unfold count_available.
    cbn [new poolShards_]. symmetry. apply available_among_new.
  - reflexivity.
  - reflexivity.
  - intros i a Hi. cbn [new poolShards_]. rewrite list_lookup_fmap, Hi. reflexivity.
  - intros s Hs. cbn [new poolShards_] in Hs. apply list_elem_of_fmap in Hs as (a & -> & _).
    repeat split.
Qed.

End PoolCalls.

(** Instances of the further properties. *)

Lemma close_releases_idle_witness :
  PoolShard.idle_ (PoolShard.close (fst MoreExamples.one_parked)) = [] /\
  PoolShard.active_ (PoolShard.close (fst MoreExamples.one_parked)) = 1 /\
  PoolShard.closed_ (PoolShard.close (fst MoreExamples.one_parked)) = true.
Proof.
  destruct (close_releases_idle (fst MoreExamples.one_parked))
    as (Hc & Hi & Ha & _).
  - reflexivity.
  - vm_compute. split; congruence.
  - vm_compute. congruence.
  - vm_compute. congruence.
  - split; [exact Hi|]. split; [exact Ha|exact Hc].
Defined.

Lemma get_on_closed_witness :
  PoolShard.get 0%nat true [] (PoolShard.close (fst MoreExamples.one_parked))
    (snd MoreExamples.one_parked)
  = (None,
     PoolShard.with_stats
       (numGet_incr (PoolShard.stats_ (PoolShard.close (fst MoreExamples.one_parked))))
       (PoolShard.close (fst MoreExamples.one_parked)),
     snd MoreExamples.one_parked, []).
Proof.
  apply (proj1 (get_on_closed 0%nat true [] (fst MoreExamples.one_parked)
                  (snd MoreExamples.one_parked))).
  reflexivity.
Defined.

Lemma put_broken_or_closed_destroys_witness :
  exists s' h',
    PoolShard.put 1%nat true (fst MoreExamples.one_parked) (snd MoreExamples.one_parked)
      = Some (s', h', [EvNotifyOne], Some 1%nat) /\
    PoolShard.idle_ s' = [0%nat] /\ PoolShard.active_ s' = 1.
Proof.
  destruct (put_broken_or_closed_destroys 1%nat true (fst MoreExamples.one_parked)
              (snd MoreExamples.one_parked))
    as (s' & h' & Hput & Hi & Ha & _).
  - vm_compute. reflexivity.
  - right. reflexivity.
  - vm_compute. split; congruence.
  - exists s', h'. split; [exact Hput|]. split; [exact Hi|exact Ha].
Defined.

Lemma put_evicts_tail_witness :
  exists s' h',
    PoolShard.put 1%nat false (fst MoreExamples.one_parked) (snd MoreExamples.one_parked)
      = Some (s', h', [EvNotifyOne], Some 0%nat) /\
    PoolShard.idle_ s' = [1%nat].
Proof.
  destruct (put_evicts_tail 1%nat (fst MoreExamples.one_parked)
              (snd MoreExamples.one_parked))
    as (s' & h' & victim & Hput & _ & _ & _ & Hsnoc & _).
  - vm_compute. reflexivity.
  - reflexivity.
  - vm_compute. split; congruence.
  - vm_compute. congruence.
  - vm_compute. split; congruence.
  - destruct (Hsnoc [] 0%nat eq_refl) as [-> Hidle].
    exists s', h'. split; [exact Hput|exact Hidle].
Defined.

Lemma put_twice_witness :
  exists s1 h1 evs victim,
    PoolShard.put 1%nat false (fst MoreExamples.one_parked) (snd MoreExamples.one_parked)
      = Some (s1, h1, evs, victim) /\
    PoolShard.put 1%nat true s1 h1
      = Some (PoolShard.with_stats (numPut_incr (PoolShard.stats_ s1)) s1, h1, [], None).
Proof.
  apply (put_twice 1%nat false true (fst MoreExamples.one_parked)
           (snd MoreExamples.one_parked)).
  vm_compute. reflexivity.
Defined.

Lemma negative_limits_witness :
  (exists s' h',
     PoolShard.put 0%nat false (fst MoreExamples.negative_idle_lent)
       (snd MoreExamples.negative_idle_lent) = Some (s', h', [EvNotifyOne], None) /\
     PoolShard.idle_ s' = [0%nat]) /\
  PoolShard.get 0%nat true [] MoreExamples.negative_active ∅
  = (None,
     PoolShard.with_stats (numGet_incr (PoolShard.stats_ MoreExamples.negative_active))
       MoreExamples.negative_active, ∅, []) /\
  PoolShard.kMaxFails_
    (PoolShard.new Examples.server1 (PoolConfig_explicit 100 100 10 100 (-1)))
  = 4294967295.
Proof.
  destruct (negative_limits Examples.server1 (PoolConfig_explicit 100 100 10 100 (-1)))
    as (Hput & Hget & Hfails).
  split; [|split].
  - destruct (Hput 0%nat (fst MoreExamples.negative_idle_lent)
                (snd MoreExamples.negative_idle_lent)) as (s' & h' & Hp & Hi & _).
    + vm_compute. reflexivity.
    + reflexivity.
    + vm_compute. split; congruence.
    + vm_compute. reflexivity.
    + exists s', h'. split; [exact Hp|exact Hi].
  - apply Hget.
    + vm_compute. reflexivity.
    + vm_compute. congruence.
    + reflexivity.
  - apply Hfails. vm_compute. split; congruence.
Defined.

Lemma get_counts_witness :
  numGet (PoolShard.stats_ (snd (fst (fst MoreExamples.first_get)))) = 1 /\
  numDial (PoolShard.stats_ (snd (fst (fst MoreExamples.first_get)))) = 1.
Proof.
  destruct (get_counts 0%nat true [] Examples.shard1 ∅
              (fst (fst (fst MoreExamples.first_get)))
              (snd (fst (fst MoreExamples.first_get)))
              (snd (fst MoreExamples.first_get)) (snd MoreExamples.first_get))
    as (Hg & _ & _ & _ & _ & Hd & _).
  - vm_compute. reflexivity.
  - split; [exact Hg|]. destruct Hd as [[Hd _]|[_ Hlog]]; [exact Hd|discriminate Hlog].
Defined.

Lemma consecutive_open_failures_witness :
  PoolShard.fails_ (PoolShard.failing_gets 5 0%nat Examples.shard1 ∅) = 5 /\
  PoolShard.isSuspectable (PoolShard.failing_gets 5 0%nat Examples.shard1 ∅) = true.
Proof.
  destruct (consecutive_open_failures 5 0%nat Examples.shard1 ∅)
    as (Hf & Hs & _).
  - reflexivity.
  - reflexivity.
  - right. reflexivity.
  - split; vm_compute; congruence.
  - reflexivity.
  - vm_compute. congruence.
  - split; [exact Hf|]. apply Hs. vm_compute. congruence.
Defined.

Lemma ownership_invariant_witness :
  DPool.owned Examples.pool3 ∅ /\
  DPool.owned (snd (fst (fst MoreExamples.pool3_got))) (snd (fst MoreExamples.pool3_got)).
Proof.
  destruct (ownership_invariant "dpool.h" (fun _ => true) (fun _ => []))
    as (Hnew & Hget & _).
  assert (H0 : DPool.owned Examples.pool3 ∅)
    by exact (Hnew [Examples.server1; Examples.server2; Examples.server3]
                PoolConfig_default 0).
  split; [exact H0|].
  apply (Hget Examples.pool3 ∅ (DPool.Return (fst (fst (fst MoreExamples.pool3_got))))
           _ _ (snd MoreExamples.pool3_got) H0).
  vm_compute. reflexivity.
Defined.

Lemma get_then_put_witness :
  exists o shard shard' evs victim,
    snd (fst MoreExamples.pool3_got) !! 0%nat = Some o /\
    dataSource_ o = Some 0%nat /\
    DPool.poolShards_ (snd (fst (fst MoreExamples.pool3_got))) !! 0%nat = Some shard /\
    serverAddr_ o = PoolShard.server_ shard /\
    PoolShard.put 0%nat true shard (snd (fst MoreExamples.pool3_got))
      = Some (shard', setBorrowed 0%nat false (snd (fst MoreExamples.pool3_got)),
              evs, victim).
Proof.
  destruct (get_then_put "dpool.h" (fun _ => true) (fun _ => []) Examples.pool3 ∅
              0%nat (snd (fst (fst MoreExamples.pool3_got)))
              (snd (fst MoreExamples.pool3_got)) (snd MoreExamples.pool3_got) true)
    as (o & i & shard & Ho & Hb & Hds & Hi & Haddr & shard' & evs & victim & Hput & _).
  - exact (owned_new [Examples.server1; Examples.server2; Examples.server3]
             PoolConfig_default 0).
  - vm_compute. reflexivity.
  - assert (Hi0 : i = 0%nat).
    { assert (Hsome : dataSource_ <$> snd (fst MoreExamples.pool3_got) !! 0%nat
                      = Some (Some 0%nat)) by (vm_compute; reflexivity).
      rewrite Ho in Hsome. cbn in Hsome. congruence. }
    subst i. exists o, shard, shard', evs, victim. auto.
Defined.

Lemma healthCheck_scan_frame_witness :
  DPool.poolShards_ (DPool.healthCheck_scan (fun _ _ => true) Examples.pool3_down)
    !! 0%nat = Some Examples.shard1 /\
  PoolShard.fails_ Examples.shard1
  = PoolShard.fails_ (PoolShard.with_available false Examples.shard1) /\
  PoolShard.stats_ Examples.shard1
  = PoolShard.stats_ (PoolShard.with_available false Examples.shard1).
Proof.
  assert (Hafter : DPool.poolShards_
                     (DPool.healthCheck_scan (fun _ _ => true) Examples.pool3_down)
                     !! 0%nat = Some Examples.shard1) by (vm_compute; reflexivity).
  split; [exact Hafter|].
  destruct (proj2 (healthCheck_scan_frame (fun _ _ => true) Examples.pool3_down)
              0%nat (PoolShard.with_available false Examples.shard1) Examples.shard1)
    as (_ & _ & Hf & Hst & _).
  - vm_compute. reflexivity.
  - exact Hafter.
  - split; [exact Hf|exact Hst].
Defined.

Lemma healthCheck_scan_healthy_witness :
  DPool.healthCheck_scan (fun _ _ => false) Examples.pool3 = Examples.pool3.
Proof.
  apply (healthCheck_scan_healthy (fun _ _ => false) Examples.pool3).
  intros s Hs. cbn in Hs. rewrite !elem_of_cons, elem_of_nil in Hs.
  destruct Hs as [->|[->|[->|[]]]]; reflexivity.
Defined.

Lemma healthCheck_scan_recovers_witness :
  DPool.prober_inv Examples.pool3_down /\
  DPool.numAvailable_ Examples.pool3_down = 2 /\
  DPool.numAvailable_ (DPool.healthCheck_scan (fun _ _ => true) Examples.pool3_down) = 3.
Proof.
  assert (Hinv : DPool.prober_inv Examples.pool3_down)
    by (repeat split; vm_compute; congruence).
  split; [exact Hinv|]. split; [reflexivity|].
  apply (healthCheck_scan_recovers (fun _ _ => true) Examples.pool3_down Hinv).
  intros i. reflexivity.
Defined.

Lemma healthCheck_scans_keep_quorum_witness :
  DPool.prober_inv MoreExamples.pool3_suspect /\
  PoolShard.isSuspectable <$> DPool.poolShards_ MoreExamples.pool3_suspect
  = [true; true; true] /\
  DPool.numAvailable_ MoreExamples.pool3_suspect = 3 /\
  PoolShard.available_
    <$> DPool.poolShards_ (DPool.healthCheck_scan (fun _ _ => false)
                             MoreExamples.pool3_suspect)
  = [false; true; true] /\
  let p' := foldl (fun q probe => DPool.healthCheck_scan probe q)
              MoreExamples.pool3_suspect
              [fun _ _ => false; fun i _ => Nat.eqb i 0] in
  PoolShard.available_ <$> DPool.poolShards_ p' = [true; false; true] /\
  DPool.count_available p' = 2 /\
  Z.min 3 (3 * 2 / 3) <= DPool.numAvailable_ p'.
Proof.
  assert (Hinv : DPool.prober_inv MoreExamples.pool3_suspect)
    by (repeat split; vm_compute; congruence).
  split; [exact Hinv|]. split; [vm_compute; reflexivity|].
  split; [vm_compute; reflexivity|]. split; [vm_compute; reflexivity|].
  pose proof (healthCheck_scans_keep_quorum MoreExamples.pool3_suspect
                [fun _ _ => false; fun i _ => Nat.eqb i 0] Hinv) as Hq.
  cbv zeta in Hq. destruct Hq as (_ & Hcount & _ & Hmin & _).
  cbv zeta. split; [vm_compute; reflexivity|].
  split; [rewrite <- Hcount; vm_compute; reflexivity|exact Hmin].
Defined.

Lemma shutdown_joins_scan_witness :
  DPool.closed_ Examples.pool3_down = false /\
  DPool.numAvailable_ Examples.pool3_down = 2 /\
  let p' := DPool.shutdown (fun _ _ => true) 0 Examples.pool3_down in
  DPool.closed_ p' = true /\
  DPool.numAvailable_ p' = 3 /\
  PoolShard.available_ <$> DPool.poolShards_ p' = [true; true; true] /\
  DPool.shutdown (fun _ _ => false) 0 p' = p' /\
  DPool.shutdown (fun _ _ => true) 3 Examples.pool3_down
  = DPool.with_closed true Examples.pool3_down.
Proof.
  assert (Hc : DPool.closed_ Examples.pool3_down = false) by reflexivity.
  split; [exact Hc|]. split; [reflexivity|].
  pose proof (shutdown_joins_scan "dpool.h" (fun _ => true) (fun _ => [])
                (fun _ _ => true) 0%nat Examples.pool3_down ∅ Hc) as H0.
  pose proof (shutdown_joins_scan "dpool.h" (fun _ => true) (fun _ => [])
                (fun _ _ => true) 3%nat Examples.pool3_down ∅ Hc) as H3.
  cbv zeta in H0, H3. cbv zeta.
  destruct H0 as (Hclosed & _ & _ & _ & _ & Hagain & _).
  destruct H3 as (_ & _ & _ & _ & Hnone & _).
  split; [exact Hclosed|]. split; [vm_compute; reflexivity|].
  split; [vm_compute; reflexivity|]. split; [apply Hagain|].
  apply Hnone. vm_compute. lia.
Defined.

Lemma getPoolStats_reads_and_resets_witness :
  fst (DPool.getPoolStats [] (snd (fst (fst MoreExamples.pool3_got)))) !! 1%nat
  = Some (mkPoolStats Examples.server2 true 0 0 0 0 0 0 0 0).
Proof.
  apply (proj1 (proj1 (proj2 (proj2 (getPoolStats_reads_and_resets [] []
                  (snd (fst (fst MoreExamples.pool3_got)))))) 1%nat
                  (PoolShard.new Examples.server2 PoolConfig_default) eq_refl)).
Defined.

Lemma get_leaves_unavailable_alone_witness :
  DPool.poolShards_ (snd (fst (fst MoreExamples.pool3_down_got))) !! 0%nat
  = DPool.poolShards_ Examples.pool3_down !! 0%nat.
Proof.
  destruct (get_leaves_unavailable_alone "dpool.h" (fun _ => true) (fun _ => [])
              Examples.pool3_down ∅ (fst (fst (fst MoreExamples.pool3_down_got)))
              (snd (fst (fst MoreExamples.pool3_down_got)))
              (snd (fst MoreExamples.pool3_down_got)) (snd MoreExamples.pool3_down_got))
    as (_ & _ & _ & _ & Hsh).
  - vm_compute. reflexivity.
  - destruct (Hsh 0%nat (PoolShard.with_available false Examples.shard1) eq_refl)
      as (s' & Hs' & _ & _ & _ & Hoff & _).
    rewrite Hs', (Hoff eq_refl). reflexivity.
Defined.


Lemma new_pool_witness :
  DPool.wf Examples.pool3 /\ DPool.numAvailable_ Examples.pool3 = 3 /\
  DPool.poolShards_ Examples.pool3 !! 2%nat
  = Some (PoolShard.new Examples.server3 PoolConfig_default).
Proof.
  destruct (new_pool [Examples.server1; Examples.server2; Examples.server3]
              PoolConfig_default 0) as (Hwf & Hn & _ & _ & _ & Hsh & _).
  - discriminate.
  - vm_compute. congruence.
  - split; [exact Hwf|]. split; [exact Hn|]. apply (Hsh 2%nat). reflexivity.
Defined.

(** * The string form of an address *)

Section Addresses.

Lemma has_char_app c s1 s2 :
  has_char c (s1 +:+ s2) = has_char c s1 || has_char c s2.
Proof.
  induction s1 as [|c1 s1 IH]; [reflexivity|].
  change (has_char c (String c1 s1 +:+ s2))
    with (Ascii.eqb c c1 || has_char c (s1 +:+ s2)).
  rewrite IH. apply orb_assoc.
Qed.

Lemma pretty_N_char_no_colon x : Ascii.eqb ":" (pretty_N_char x) = false.
Proof. unfold pretty_N_char. repeat case_match; reflexivity. Qed.

(** The decimal form of a number has no colon. *)
Lemma pretty_N_go_no_colon x :
  forall s, has_char ":"%char s = false -> has_char ":"%char (pretty_N_go x s) = false.
Proof.
  induction (N.lt_wf_0 x) as [x _ IH]; intros s Hs.
  assert (x = 0 \/ 0 < x)%N as [->|Hpos] by lia.
  - rewrite pretty_N_go_0. exact Hs.
  - rewrite pretty_N_go_step by exact Hpos. apply IH.
    + apply N.div_lt; lia.
    + change (has_char ":" (String (pretty_N_char (x `mod` 10)) s))
        with (Ascii.eqb ":" (pretty_N_char (x `mod` 10)) || has_char ":" s).
      rewrite Hs, pretty_N_char_no_colon. reflexivity.
Qed.

Lemma pretty_N_no_colon (x : N) : has_char ":"%char (pretty x) = false.
Proof.
  unfold pretty, pretty_N. destruct (decide (x = 0%N)); [reflexivity|].
  apply pretty_N_go_no_colon. reflexivity.
Qed.

Lemma pretty_Z_no_colon (z : Z) : has_char ":"%char (pretty z) = false.
Proof.
  unfold pretty, pretty_Z. destruct z as [|x|x]; [reflexivity| |].
  - apply (pretty_N_no_colon (N.pos x)).
  - rewrite has_char_app. cbn. apply (pretty_N_no_colon (N.pos x)).
Qed.

(** A string is cut at its last colon in one way only. *)
Lemma cut_at_last_colon s1 :
  forall s2 d1 d2,
    has_char ":" d1 = false -> has_char ":" d2 = false ->
    s1 +:+ String ":" d1 = s2 +:+ String ":" d2 -> s1 = s2 /\ d1 = d2.
Proof.
  induction s1 as [|c1 s1 IH]; intros [|c2 s2] d1 d2 H1 H2 Heq.
  - change (String ":" d1 = String ":" d2) in Heq. injection Heq as ->. auto.
  - change (String ":" d1 = String c2 (s2 +:+ String ":" d2)) in Heq.
    injection Heq as _ ->. rewrite has_char_app in H1.
    change (has_char ":" (String ":" d2)) with true in H1.
    rewrite orb_true_r in H1. discriminate.
  - change (String c1 (s1 +:+ String ":" d1) = String ":" d2) in Heq.
    injection Heq as _ <-. rewrite has_char_app in H2.
    change (has_char ":" (String ":" d1)) with true in H2.
    rewrite orb_true_r in H2. discriminate.
  - change (String c1 (s1 +:+ String ":" d1) = String c2 (s2 +:+ String ":" d2)) in Heq.
    injection Heq as -> Heq. destruct (IH s2 d1 d2 H1 H2 Heq) as [-> ->]. auto.
Qed.

Lemma append_colon s d : s +:+ ":" +:+ d = s +:+ String ":" d.
Proof.
  induction s as [|c s IH]; [reflexivity|].
  change (String c (s +:+ ":" +:+ d) = String c (s +:+ String ":" d)). rewrite IH.
  reflexivity.
Qed.

(** X21. [to_string] tells addresses apart: two addresses with the same string
    form have the same host and the same port, also when the host itself
    contains colons. *)
Theorem to_string_inj a b : a <> b -> to_string a <> to_string b.
Proof.
  intros Hne Heq. apply Hne. unfold to_string in Heq. rewrite !append_colon in Heq.
  destruct (cut_at_last_colon _ _ _ _ (pretty_Z_no_colon (port a))
              (pretty_Z_no_colon (port b)) Heq) as [Hhost Hport].
  apply (inj pretty) in Hport. destruct a, b. cbn in *. congruence.
Qed.

End Addresses.

Lemma to_string_inj_witness :
  to_string (mkInetSocketAddress "::1" 6379) <> to_string (mkInetSocketAddress "::1:6" 379).
Proof. apply to_string_inj. discriminate. Defined.

(** * Counters between two readouts *)

Section Readouts.

Import PoolShard.

Implicit Types (s : t) (h : heap).

Lemma failing_get_stats this waits s h :
  idle_ s = [] -> closed_ s = false ->
  kMaxActive_ s = 0 \/ active_ s < kMaxActive_ s ->
  let s' := snd (fst (fst (get this false waits s h))) in
  stats_ s' = numDialFail_incr (numDial_incr (numGet_incr (stats_ s))) /\
  available_ s' = available_ s.
Proof.
  intros Hidle Hclosed Hcap. cbv zeta. rewrite get_cases. cbv zeta.
  rewrite Hidle, Hclosed.
  assert (Hc : (kMaxActive_ s =? 0) || (active_ s <? kMaxActive_ s) = true).
  { destruct Hcap as [->|Hlt]; [reflexivity|].
    rewrite (proj2 (Z.ltb_lt _ _) Hlt). apply orb_true_r. }
  rewrite Hc. split; reflexivity.
Qed.

Lemma failing_gets_stats n this h :
  forall s,
    idle_ s = [] -> closed_ s = false ->
    kMaxActive_ s = 0 \/ active_ s < kMaxActive_ s -> in_int (active_ s) ->
    0 <= numGet (stats_ s) -> numGet (stats_ s) + Z.of_nat n <= LONG_MAX ->
    0 <= numDial (stats_ s) -> numDial (stats_ s) + Z.of_nat n <= LONG_MAX ->
    0 <= numDialFail (stats_ s) -> numDialFail (stats_ s) + Z.of_nat n <= LONG_MAX ->
    let s' := failing_gets n this s h in
    numGet (stats_ s') = numGet (stats_ s) + Z.of_nat n /\
    numDial (stats_ s') = numDial (stats_ s) + Z.of_nat n /\
    numDialFail (stats_ s') = numDialFail (stats_ s) + Z.of_nat n /\
    numPut (stats_ s') = numPut (stats_ s) /\
    numBroken (stats_ s') = numBroken (stats_ s) /\
    numEvict (stats_ s') = numEvict (stats_ s) /\
    numClose (stats_ s') = numClose (stats_ s) /\
    available_ s' = available_ s /\ active_ s' = active_ s.
Proof.
  induction n as [|n IH]; intros s Hidle Hclosed Hcap Hact Hg0 Hg Hd0 Hd Hf0 Hf;
    cbv zeta.
  - simpl. repeat split; lia.
  - cbn [failing_gets].
    destruct (failing_get_fields this [] s h Hidle Hclosed Hcap Hact)
      as (_ & Hi & Hc & Ha & Hcfg).
    destruct (failing_get_stats this [] s h Hidle Hclosed Hcap) as (Hst & Hav).
    set (s1 := snd (fst (fst (get this false [] s h)))) in *.
    destruct Hcfg as (_ & HmaxA & _).
    assert (Hlong : forall z, 0 <= z -> z + Z.of_nat (S n) <= LONG_MAX ->
                              incr_long z = z + 1).
    { intros z Hz0 Hz. apply incr_long_succ; unfold in_long, LONG_MAX in *;
        change (2 ^ 63) with 9223372036854775808 in *; lia. }
    assert (Hg1 : numGet (stats_ s1) = numGet (stats_ s) + 1)
      by (rewrite Hst; cbn; apply Hlong; assumption).
    assert (Hd1 : numDial (stats_ s1) = numDial (stats_ s) + 1)
      by (rewrite Hst; cbn; apply Hlong; assumption).
    assert (Hf1 : numDialFail (stats_ s1) = numDialFail (stats_ s) + 1)
      by (rewrite Hst; cbn; apply Hlong; assumption).
    destruct (IH s1) as (Rg & Rd & Rf & Rp & Rb & Re & Rc & Rav & Ra);
      try assumption; rewrite ?HmaxA, ?Ha, ?Hg1, ?Hd1, ?Hf1; try assumption; try lia.
    rewrite Rg, Rd, Rf, Rp, Rb, Re, Rc, Rav, Ra, Hg1, Hd1, Hf1, Hst, Hav, Ha.
    cbn. repeat split; lia.
Qed.

(** X8. Counters count what happens between two readouts. After a
    [getShardStats], [n] calls of [get] that each dial and fail, and a second
    [getShardStats], the second readout reports [n] gets, [n] dials and [n]
    failed dials, 0 for the counters of [put], and the flag and [active_] of
    the shard, whatever the counters held before the first readout. *)
Theorem readout_counts_gets n this st st2 s h :
  idle_ s = [] -> closed_ s = false ->
  kMaxActive_ s = 0 \/ active_ s < kMaxActive_ s -> in_int (active_ s) ->
  Z.of_nat n <= LONG_MAX ->
  let s1 := snd (getShardStats st s) in
  let out := fst (getShardStats st2 (failing_gets n this s1 h)) in
  out = mkPoolStats (server st2) (available_ s) (active_ s)
          (Z.of_nat n) 0 0 (Z.of_nat n) (Z.of_nat n) 0 0.
Proof.
  intros Hidle Hclosed Hcap Hact Hn. cbv zeta.
  destruct (failing_gets_stats n this h (snd (getShardStats st s)))
    as (Rg & Rd & Rf & Rp & Rb & Re & Rc & Rav & Ra);
    try assumption; try (cbn; lia).
  unfold getShardStats at 1. cbn [fst].
  rewrite Rg, Rd, Rf, Rp, Rb, Re, Rc, Rav, Ra. reflexivity.
Qed.

End Readouts.

Lemma readout_counts_gets_witness :
  fst (PoolShard.getShardStats (PoolStats_new Examples.server1)
         (PoolShard.failing_gets 3 0%nat
            (snd (PoolShard.getShardStats (PoolStats_new Examples.server1)
                    (snd (fst (fst MoreExamples.first_get)))))
            (snd (fst MoreExamples.first_get))))
  = mkPoolStats Examples.server1 true 1 3 0 0 3 3 0 0.
Proof.
  apply (readout_counts_gets 3 0%nat (PoolStats_new Examples.server1)
           (PoolStats_new Examples.server1) (snd (fst (fst MoreExamples.first_get)))
           (snd (fst MoreExamples.first_get))).
  - reflexivity.
  - reflexivity.
  - right. reflexivity.
  - split; vm_compute; congruence.
  - vm_compute. congruence.
Defined.

(** * A pool with nothing to hand out *)

Section Exhaustion.

Import DPool.

Variable FILE : string.
Variable opens : Z -> bool.
Variable waits : Z -> list cv_status.

Implicit Types (p : t) (h : heap).





End Exhaustion.

